(** * An LRU cache: the [lru] package of groupcache

    A shallow embedding of [src/lru/lru.go].  The Go [Cache] owns a
    [container/list] doubly linked list of elements and a map from keys to
    pointers into that list.  The embedding keeps this shape: list elements
    are addresses into a store of entries, the recency list is a sequence of
    addresses (front first) and the index is a finite map from keys to
    addresses.  Nil pointers and nil maps are [None]; a nil dereference, a
    write to a nil map or a failed type assertion is a panic, the [None]
    result of the monad [M]. *)

From stdpp Require Import base option list sorting gmap strings.
From Stdlib Require Import ZArith Lia.

Local Open Scope Z_scope.

(** A [*list.Element]: an address in the element store. *)
Abbreviation Element := nat.

Section lru.

(** [Key] is Go's [interface{}] restricted to comparable values, [Value] is
    [interface{}], whose zero value [nil_value] is the inhabitant the
    instance names.  [World] is whatever the eviction callback acts on; the
    callback does not re-enter the cache. *)
Context `{Countable Key} `{Inhabited Value} {World : Type}.

Definition nil_value : Value := inhabitant.

(** ** Data *)

Record entry := Entry { key : Key; value : Value }.

Record Cache := mkCache {
  MaxEntries : Z;
  OnEvicted : option (Key → Value → World → World);
  ll : option (list Element);
  cache : option (gmap Key Element)
}.

(** The receiver [*c], the store holding the [Value] of every element ever
    allocated (an element stays readable after [list.Remove]), and the
    world the callback writes to. *)
Record State := mkState {
  self : Cache;
  heap : list entry;
  world : World
}.

(** ** The state and panic monad *)

Definition M (A : Type) : Type := State → option (A * State).

#[global] Instance M_ret : MRet M := λ A x s, Some (x, s).
#[global] Instance M_bind : MBind M := λ A B f m s,
  match m s with
  | Some (a, s') => f a s'
  | None => None
  end.

Definition panic {A} : M A := λ _, None.
Definition get_self : M Cache := λ s, Some (self s, s).
Definition put_self (c : Cache) : M unit :=
  λ s, Some (tt, mkState c (heap s) (world s)).

Definition set_ll (l : option (list Element)) : M unit :=
  c ← get_self;
  put_self (mkCache (MaxEntries c) (OnEvicted c) l (cache c)).

Definition set_cache (m : option (gmap Key Element)) : M unit :=
  c ← get_self;
  put_self (mkCache (MaxEntries c) (OnEvicted c) (ll c) m).

(** The entry behind [e.Value], the type assertion to a pointer to
    [entry]: fails when [e] holds no entry. *)
Definition deref (e : Element) : M entry :=
  λ s, match heap s !! e with
       | Some kv => Some (kv, s)
       | None => None
       end.

(** Assignment to the [value] field of the entry behind [e.Value]. *)
Definition set_value (e : Element) (v : Value) : M unit :=
  λ s, match heap s !! e with
       | Some kv =>
           Some (tt, mkState (self s) (<[e := Entry (key kv) v]> (heap s))
                       (world s))
       | None => None
       end.

(** [&list.Element{Value: &entry{...}}]: a fresh address. *)
Definition alloc (kv : entry) : M Element :=
  λ s, Some (length (heap s), mkState (self s) (heap s ++ [kv]) (world s)).

(** [c.OnEvicted(k, v)] for a non-nil callback [f]. *)
Definition call (f : Key → Value → World → World) (k : Key) (v : Value)
  : M unit :=
  λ s, Some (tt, mkState (self s) (heap s) (f k v (world s))).

(** ** [container/list] on the field [c.ll]

    The list is the sequence of its elements, front first.  [PushFront],
    [Back] and [Len] dereference their receiver, so a nil [c.ll] panics.
    [MoveToFront] and [Remove] do nothing for an element that is not in
    the receiver's list.  With a nil receiver Go's two methods return or
    panic depending on the element's own list pointer; the embedding takes
    the panic, and [wf] below keeps a nil [c.ll] away from both. *)

Definition ll_PushFront (kv : entry) : M Element :=
  c ← get_self;
  match ll c with
  | None => panic
  | Some l => e ← alloc kv; set_ll (Some (e :: l));; mret e
  end.

Definition remove_elem (e : Element) (l : list Element) : list Element :=
  filter (λ x, x ≠ e) l.

Definition ll_MoveToFront (e : Element) : M unit :=
  c ← get_self;
  match ll c with
  | None => panic
  | Some l =>
      if decide (e ∈ l) then set_ll (Some (e :: remove_elem e l))
      else mret tt
  end.

Definition ll_Remove (e : Element) : M unit :=
  c ← get_self;
  match ll c with
  | None => panic
  | Some l => set_ll (Some (remove_elem e l))
  end.

Definition ll_Back : M (option Element) :=
  c ← get_self;
  match ll c with
  | None => panic
  | Some l => mret (last l)
  end.

Definition ll_Len : M Z :=
  c ← get_self;
  match ll c with
  | None => panic
  | Some l => mret (Z.of_nat (length l))
  end.

(** ** The map [c.cache]

    Reading and deleting from a nil map are allowed, writing panics. *)

Definition map_lookup (k : Key) : M (option Element) :=
  c ← get_self;
  mret (m ← cache c; m !! k).

Definition map_insert (k : Key) (e : Element) : M unit :=
  c ← get_self;
  match cache c with
  | None => panic
  | Some m => set_cache (Some (<[k := e]> m))
  end.

Definition map_delete (k : Key) : M unit :=
  c ← get_self;
  match cache c with
  | None => mret tt
  | Some m => set_cache (Some (delete k m))
  end.

(** ** The package *)

Definition New (maxEntries : Z) : Cache :=
  mkCache maxEntries None (Some []) (Some ∅).

Definition removeElement (e : Element) : M unit :=
  ll_Remove e;;
  kv ← deref e;
  map_delete (key kv);;
  c ← get_self;
  match OnEvicted c with
  | Some f => call f (key kv) (value kv)
  | None => mret tt
  end.

Definition RemoveOldest : M unit :=
  c ← get_self;
  match cache c with
  | None => mret tt
  | Some _ =>
      ele ← ll_Back;
      match ele with
      | Some ele => removeElement ele
      | None => mret tt
      end
  end.

Definition Add (key : Key) (value : Value) : M unit :=
  c ← get_self;
  match cache c with
  | None => set_cache (Some ∅);; set_ll (Some [])
  | Some _ => mret tt
  end;;
  ee ← map_lookup key;
  match ee with
  | Some ee => ll_MoveToFront ee;; set_value ee value
  | None =>
      ele ← ll_PushFront (Entry key value);
      map_insert key ele;;
      c ← get_self;
      if decide (MaxEntries c ≠ 0) then
        n ← ll_Len;
        if decide (n > MaxEntries c) then RemoveOldest else mret tt
      else mret tt
  end.

Definition Get (key : Key) : M (Value * bool) :=
  c ← get_self;
  match cache c with
  | None => mret (nil_value, false)
  | Some _ =>
      ele ← map_lookup key;
      match ele with
      | Some ele =>
          ll_MoveToFront ele;;
          kv ← deref ele;
          mret (value kv, true)
      | None => mret (nil_value, false)
      end
  end.

Definition Remove (key : Key) : M unit :=
  c ← get_self;
  match cache c with
  | None => mret tt
  | Some _ =>
      ele ← map_lookup key;
      match ele with
      | Some ele => removeElement ele
      | None => mret tt
      end
  end.

Definition Len : M Z :=
  c ← get_self;
  match cache c with
  | None => mret 0
  | Some _ => ll_Len
  end.

(** [for _, e := range c.cache]: Go visits every pair of the map once, in
    an order it does not fix.  [Clear] takes the order of the visit as an
    argument; [range_order] says which orders a run can take. *)
Definition range_order (c : Cache) (order : list (Key * Element)) : Prop :=
  order ≡ₚ map_to_list (default ∅ (cache c)).

Fixpoint evict_each (order : list (Key * Element)) : M unit :=
  match order with
  | [] => mret tt
  | (_, e) :: rest =>
      kv ← deref e;
      c ← get_self;
      match OnEvicted c with
      | Some f => call f (key kv) (value kv)
      | None => panic
      end;;
      evict_each rest
  end.

Definition Clear (order : list (Key * Element)) : M unit :=
  c ← get_self;
  match OnEvicted c with
  | Some _ => evict_each order
  | None => mret tt
  end;;
  set_ll None;;
  set_cache None.

(** ** Observations

    The resident entries in recency order (front first), read through the
    element pointers of [c.ll]. *)

Definition entries_of (h : list entry) (l : list Element) : list entry :=
  omap (λ e, h !! e) l.

Definition order (s : State) : list Element := default [] (ll (self s)).
Definition index (s : State) : gmap Key Element :=
  default ∅ (cache (self s)).
Definition entries (s : State) : list entry := entries_of (heap s) (order s).

Definition resident (k : Key) (s : State) : Prop := is_Some (index s !! k).

(** The value a resident key is bound to. *)
Definition stored (k : Key) (s : State) : option Value :=
  e ← index s !! k; value <$> heap s !! e.

(** What one invocation of the callback field on an entry does to the
    world: nothing when the field is nil. *)
Definition fire (cb : option (Key → Value → World → World)) (w : World)
    (kv : entry) : World :=
  match cb with
  | Some f => f (key kv) (value kv) w
  | None => w
  end.

(** One callback invocation per entry of [kvs], in the order of [kvs]. *)
Definition fire_all (cb : option (Key → Value → World → World)) (w : World)
    (kvs : list entry) : World :=
  foldl (fire cb) w kvs.

(** The test [c.MaxEntries != 0 && c.ll.Len() > c.MaxEntries] of [Add] on a
    list of [n] elements. *)
Definition overflows (maxEntries : Z) (n : nat) : Prop :=
  maxEntries ≠ 0 ∧ Z.of_nat n > maxEntries.

(** ** The representation invariant

    Index and recency list are in one-to-one correspondence: the list has
    no element twice, every key of the index points to a list element
    holding an entry with that key, and every list element is the one the
    index has for its key.  Both fields are nil together. *)

Definition linked (h : list entry) (l : list Element) (m : gmap Key Element)
  : Prop :=
  NoDup l ∧
  (∀ k e, m !! k = Some e → e ∈ l ∧ ∃ v, h !! e = Some (Entry k v)) ∧
  (∀ e, e ∈ l → ∃ kv, h !! e = Some kv ∧ m !! key kv = Some e).

Definition wf (s : State) : Prop :=
  match ll (self s), cache (self s) with
  | Some l, Some m => linked (heap s) l m
  | None, None => True
  | _, _ => False
  end.

(** The states a program can build: a cache from [New] or a zero [Cache]
    literal with its exported fields set. *)
Definition init (c : Cache) (w : World) : State := mkState c [] w.

Definition zero_Cache (maxEntries : Z)
    (onEvicted : option (Key → Value → World → World)) : Cache :=
  mkCache maxEntries onEvicted None None.

(** The assignment [c.OnEvicted = cb] to the exported field. *)
Definition with_OnEvicted (cb : option (Key → Value → World → World))
    (c : Cache) : Cache :=
  mkCache (MaxEntries c) cb (ll c) (cache c).

(** ** Histories of [Add] and [Get] calls *)

Inductive op := OpAdd (k : Key) (v : Value) | OpGet (k : Key).

(** Runs one call and reports the key it touched: [Add] touches its key,
    [Get] touches it on a hit. *)
Definition step (o : op) : M (option Key) :=
  match o with
  | OpAdd k v => Add k v;; mret (Some k)
  | OpGet k => '(_, ok) ← Get k; mret (if ok : bool then Some k else None)
  end.

Fixpoint run (ops : list op) : M (list (option Key)) :=
  match ops with
  | [] => mret []
  | o :: ops' => t ← step o; ts ← run ops'; mret (t :: ts)
  end.

(** The time of the last touch of [k] in a log of touches, counting the
    calls from [now]. *)
Fixpoint last_touch_from (now : nat) (k : Key) (log : list (option Key))
  : option nat :=
  match log with
  | [] => None
  | t :: log' =>
      match last_touch_from (S now) k log' with
      | Some i => Some i
      | None => if decide (t = Some k) then Some now else None
      end
  end.

Definition last_touch (k : Key) (log : list (option Key)) : option nat :=
  last_touch_from 0 k log.

(** [k1] was last touched before [k2] was. *)
Definition touched_before (log : list (option Key)) (k1 k2 : Key) : Prop :=
  ∃ t1 t2, last_touch k1 log = Some t1 ∧ last_touch k2 log = Some t2 ∧
           (t1 < t2)%nat.

(** Every key of [ks] has been touched, and each was touched after all
    the keys behind it. *)
Definition recency_ordered (log : list (option Key)) (ks : list Key)
  : Prop :=
  Forall (λ k, is_Some (last_touch k log)) ks ∧
  StronglySorted (λ k1 k2, touched_before log k2 k1) ks.

Definition entry_of (p : Key * Value) : entry := Entry p.1 p.2.

(** What a history keeps true of a cache made with capacity [C] and
    callback [cb]: the keys of the recency list are in the order of their
    last touches in the log of the history. *)
Definition tracks (C : Z) (cb : option (Key → Value → World → World))
    (log : list (option Key)) (s : State) : Prop :=
  wf s ∧ MaxEntries (self s) = C ∧ OnEvicted (self s) = cb ∧
  recency_ordered log (key <$> entries s).

Fixpoint add_all (kvs : list (Key * Value)) : M unit :=
  match kvs with
  | [] => mret tt
  | (k, v) :: kvs' => Add k v;; add_all kvs'
  end.

(** ** Programs over the whole interface

    A call of one exported method and what it returns.  [CClear] carries
    the order in which the loop of [Clear] visits the map. *)

Inductive method :=
  | CAdd (k : Key) (v : Value)
  | CGet (k : Key)
  | CRemove (k : Key)
  | CRemoveOldest
  | CLen
  | CClear (order : list (Key * Element)).

Inductive result :=
  | RDone
  | RGet (v : Value) (ok : bool)
  | RLen (n : Z).

Definition exec (c : method) : M result :=
  match c with
  | CAdd k v => Add k v;; mret RDone
  | CGet k => '(v, ok) ← Get k; mret (RGet v ok)
  | CRemove k => Remove k;; mret RDone
  | CRemoveOldest => RemoveOldest;; mret RDone
  | CLen => n ← Len; mret (RLen n)
  | CClear order => Clear order;; mret RDone
  end.

Fixpoint exec_all (cs : list method) : M (list result) :=
  match cs with
  | [] => mret []
  | c :: cs' => r ← exec c; rs ← exec_all cs'; mret (r :: rs)
  end.

(** Every [CClear] of the program carries an order its loop can take in
    the state the call starts from. *)
Fixpoint orders_valid (cs : list method) (s : State) : Prop :=
  match cs with
  | [] => True
  | c :: cs' =>
      match c with
      | CClear order => range_order (self s) order
      | _ => True
      end ∧
      match exec c s with
      | Some (_, s') => orders_valid cs' s'
      | None => True
      end
  end.

(** [n] calls of [RemoveOldest] in a row. *)
Fixpoint drain (n : nat) : M unit :=
  match n with
  | O => mret tt
  | S n' => RemoveOldest;; drain n'
  end.


(** The key a call touched, given its result: [Add] touches its key,
    [Get] does on a hit, the other methods touch none. *)
Definition touched (c : method) (r : result) : option Key :=
  match c, r with
  | CAdd k _, _ => Some k
  | CGet k, RGet _ true => Some k
  | _, _ => None
  end.

Definition touch_log (cs : list method) (rs : list result)
  : list (option Key) :=
  zip_with touched cs rs.


(** Two states that are equal, or differ only in that the first has nil
    list and map where the second has them allocated and empty. *)
Definition same_but_nil (s1 s2 : State) : Prop :=
  s1 = s2 ∨
  ∃ mx cb h w, s1 = mkState (zero_Cache mx cb) h w ∧
               s2 = mkState (mkCache mx cb (Some []) (Some ∅)) h w.

End lru.

Arguments entries_of : simpl never.

(** ** A concrete instance: string keys, and values that are nil, an
    integer or a string; the callback logs its arguments, latest first. *)

Inductive val := Nil | Int (z : Z) | Str (s : string).

#[global] Instance val_inhabited : Inhabited val := populate Nil.

Definition Log : Type := list (string * val).

Definition log_evicted : string → val → Log → Log := λ k v w, (k, v) :: w.

Definition logged (c : Cache (Key:=string) (Value:=val) (World:=Log))
  : Cache := with_OnEvicted (Some log_evicted) c.

Definition keys_of (s : State (Key:=string) (Value:=val) (World:=Log))
  : list string := key <$> entries s.

(** A cache from [New] with a logging callback and an empty log. *)
Definition fresh (maxEntries : Z)
  : State (Key:=string) (Value:=val) (World:=Log) :=
  init (logged (New maxEntries)) [].

(** The state after [Add("a", 1); Add("b", 2)] on a fresh cache of
    capacity 2. *)
Definition fresh_ab : State (Key:=string) (Value:=val) (World:=Log) :=
  default (fresh 2)
    (snd <$> add_all [("a"%string, Int 1); ("b"%string, Int 2)] (fresh 2)).

(** A program over the whole interface, for a fresh cache of capacity 2:
    the [Clear] finds ["a"] and ["b"] resident. *)
Definition demo_program : list (@method string val) :=
  [CAdd "a"%string (Int 1); CAdd "b"%string (Int 2); CGet "a"%string; CLen;
   CClear [("a"%string, 0%nat); ("b"%string, 1%nat)];
   CAdd "c"%string (Int 3); CGet "b"%string; CRemove "z"%string;
   CRemoveOldest; CLen].


(** A program for a fresh cache of capacity 3 that ends with three
    resident keys: the [Clear] finds ["x"] resident, and ["a"] is read
    after ["b"] and ["c"] were added. *)
Definition demo_program_lru : list (@method string val) :=
  [CAdd "x"%string (Int 0); CClear [("x"%string, 0%nat)];
   CAdd "a"%string (Int 1); CAdd "b"%string (Int 2); CAdd "c"%string (Int 3);
   CGet "a"%string; CRemove "z"%string; CLen].


(** * Properties *)

Section lru_theory.

Context `{Countable Key} `{Inhabited Value} {World : Type}.

Implicit Types (k : Key) (v : Value) (e : Element) (kv : @entry Key Value)
  (h : list (@entry Key Value)) (l : list Element)
  (m : gmap Key Element) (w : World) (mx : Z)
  (cb : option (Key → Value → World → World))
  (c : @Cache Key _ _ Value World) (s : @State Key _ _ Value World)
  (log : list (option Key)) (ks : list Key).

Ltac unfold_M :=
  unfold Add, Get, Remove, RemoveOldest, removeElement, Len, Clear,
    ll_PushFront, ll_MoveToFront, ll_Remove, ll_Back, ll_Len,
    map_lookup, map_insert, map_delete, set_ll, set_cache, put_self,
    get_self, deref, set_value, alloc, call, panic,
    mbind, M_bind, mret, M_ret in *.

(** ** The list primitives *)

Lemma filter_keep {A} (P : A → Prop) `{!∀ x, Decision (P x)} (xs : list A) :
  Forall P xs → filter P xs = xs.
Proof.
  induction 1 as [|x xs Hx _ IH]; [done|].
  rewrite filter_cons_True by done. by f_equal.
Qed.

Lemma elem_of_remove_elem e l x : x ∈ remove_elem e l ↔ x ∈ l ∧ x ≠ e.
Proof. unfold remove_elem. rewrite list_elem_of_filter. tauto. Qed.

Lemma NoDup_remove_elem e l : NoDup l → NoDup (remove_elem e l).
Proof. apply NoDup_filter. Qed.

Lemma remove_elem_notin e l : e ∉ l → remove_elem e l = l.
Proof.
  induction l as [|x l IH]; [done|].
  rewrite not_elem_of_cons. intros [Hne Hl]. unfold remove_elem in *.
  rewrite filter_cons_True by congruence. f_equal. auto.
Qed.

Lemma remove_elem_snoc e l : e ∉ l → remove_elem e (l ++ [e]) = l.
Proof.
  intros Hl. unfold remove_elem. rewrite filter_app.
  fold (remove_elem e l). rewrite remove_elem_notin by done.
  rewrite filter_cons_False by (intros Hx; by apply Hx).
  by rewrite filter_nil, app_nil_r.
Qed.

Lemma length_remove_elem e l :
  NoDup l → e ∈ l → S (length (remove_elem e l)) = length l.
Proof.
  induction l as [|x l IH]; intros Hnd Hin; [by apply elem_of_nil in Hin|].
  apply NoDup_cons in Hnd as [Hx Hnd]. unfold remove_elem in *.
  destruct (decide (x = e)) as [->|Hne].
  - rewrite filter_cons_False by (intros Hx'; by apply Hx').
    fold (remove_elem e l). by rewrite remove_elem_notin.
  - rewrite filter_cons_True by done. simpl. f_equal. apply IH; [done|].
    apply elem_of_cons in Hin as [?|?]; congruence.
Qed.

(** ** Reading entries through element pointers *)

Lemma entries_of_unfold h e l :
  entries_of h (e :: l) =
  match h !! e with
  | Some kv => kv :: entries_of h l
  | None => entries_of h l
  end.
Proof. reflexivity. Qed.

Lemma entries_of_cons h e l kv :
  h !! e = Some kv → entries_of h (e :: l) = kv :: entries_of h l.
Proof. intros He. by rewrite entries_of_unfold, He. Qed.

Lemma entries_of_app h l1 l2 :
  entries_of h (l1 ++ l2) = entries_of h l1 ++ entries_of h l2.
Proof. apply omap_app. Qed.

Lemma entries_of_ext h h' l :
  (∀ e, e ∈ l → h !! e = h' !! e) → entries_of h l = entries_of h' l.
Proof.
  induction l as [|e l IH]; intros Hext; [done|].
  assert (entries_of h l = entries_of h' l) as IH'.
  { apply IH. intros e' He'. apply Hext. by apply list_elem_of_further. }
  rewrite !entries_of_unfold.
  rewrite <- (Hext e) by apply list_elem_of_here. by rewrite IH'.
Qed.

Lemma entries_of_length h l :
  (∀ e, e ∈ l → is_Some (h !! e)) → length (entries_of h l) = length l.
Proof.
  induction l as [|e l IH]; intros Hall; [done|].
  destruct (Hall e) as [kv Hkv]; [apply list_elem_of_here|].
  rewrite (entries_of_cons _ _ _ kv) by done. simpl. f_equal. apply IH.
  intros e' He'. apply Hall. by apply list_elem_of_further.
Qed.

Lemma entries_of_filter h l e k :
  (∀ e', e' ∈ l → ∃ kv, h !! e' = Some kv ∧ (key kv = k ↔ e' = e)) →
  entries_of h (remove_elem e l) =
  filter (λ kv, key kv ≠ k) (entries_of h l).
Proof.
  induction l as [|x l IH]; intros Hall; [done|].
  assert (entries_of h (remove_elem e l) =
          filter (λ kv, key kv ≠ k) (entries_of h l)) as IH'.
  { apply IH. intros e' He'. apply Hall. by apply list_elem_of_further. }
  destruct (Hall x) as (kv & Hkv & Hiff); [apply list_elem_of_here|].
  rewrite (entries_of_cons _ _ _ kv) by done. unfold remove_elem in *.
  destruct (decide (x = e)) as [->|Hne].
  - rewrite filter_cons_False by (intros Hx; by apply Hx).
    rewrite filter_cons_False by (intros Hx; apply Hx; by apply Hiff).
    done.
  - rewrite filter_cons_True by done.
    rewrite filter_cons_True by (intros Hx; by apply Hne, Hiff).
    rewrite (entries_of_cons _ _ _ kv) by done. by f_equal.
Qed.

(** ** The invariant and the primitives *)

Lemma linked_nil h : linked h [] ∅.
Proof.
  split; [apply NoDup_nil_2|]. split.
  - intros k e Hk. by rewrite lookup_empty in Hk.
  - intros e He. by apply elem_of_nil in He.
Qed.

Lemma linked_entry h l m k e :
  linked h l m → m !! k = Some e → e ∈ l ∧ ∃ v, h !! e = Some (Entry k v).
Proof. intros (_ & Hm & _). apply Hm. Qed.

Lemma linked_elem h l m e :
  linked h l m → e ∈ l → ∃ kv, h !! e = Some kv ∧ m !! key kv = Some e.
Proof. intros (_ & _ & Hl). apply Hl. Qed.

Lemma linked_inj h l m k k' e :
  linked h l m → m !! k = Some e → m !! k' = Some e → k = k'.
Proof.
  intros Hlk Hk Hk'.
  destruct (linked_entry _ _ _ _ _ Hlk Hk) as (_ & v & Hv).
  destruct (linked_entry _ _ _ _ _ Hlk Hk') as (_ & v' & Hv').
  congruence.
Qed.

Lemma linked_key_iff h l m k e e' :
  linked h l m → m !! k = Some e → e' ∈ l →
  ∃ kv, h !! e' = Some kv ∧ (key kv = k ↔ e' = e).
Proof.
  intros Hlk Hk He'.
  destruct (linked_elem _ _ _ _ Hlk He') as (kv & Hkv & Hkey).
  exists kv. split; [done|]. split.
  - intros <-. congruence.
  - intros ->. destruct (linked_entry _ _ _ _ _ Hlk Hk) as (_ & v & Hv).
    rewrite Hv in Hkv. by injection Hkv as <-.
Qed.

Lemma linked_entries_length h l m :
  linked h l m → length (entries_of h l) = length l.
Proof.
  intros Hlk. apply entries_of_length. intros e He.
  destruct (linked_elem _ _ _ _ Hlk He) as (kv & Hkv & _). by exists kv.
Qed.

Lemma linked_resident h l m k :
  linked h l m → is_Some (m !! k) ↔ k ∈ key <$> entries_of h l.
Proof.
  intros Hlk. split.
  - intros [e He]. destruct (linked_entry _ _ _ _ _ Hlk He) as (Hin & v & Hv).
    apply list_elem_of_fmap. exists (Entry k v). split; [done|].
    apply list_elem_of_omap. by exists e.
  - intros (kv & -> & Hkv)%list_elem_of_fmap.
    apply list_elem_of_omap in Hkv as (e & He & Hlook).
    destruct (linked_elem _ _ _ _ Hlk He) as (kv' & Hkv' & Hkey).
    exists e. congruence.
Qed.

Lemma linked_push h l m k v :
  linked h l m → m !! k = None →
  linked (h ++ [Entry k v]) (length h :: l) (<[k := length h]> m).
Proof.
  intros Hlk Hk.
  assert (∀ e, e ∈ l → (e < length h)%nat) as Hlt.
  { intros e He. destruct (linked_elem _ _ _ _ Hlk He) as (kv & Hkv & _).
    by eapply lookup_lt_Some. }
  destruct Hlk as (Hnd & Hm & Hl). split; [|split].
  - apply NoDup_cons. split; [|done]. intros Hin. apply Hlt in Hin. lia.
  - intros k' e. rewrite lookup_insert. case_decide as Hkk.
    + intros [= <-]. subst k'. split; [apply list_elem_of_here|].
      exists v. by rewrite lookup_app_r, Nat.sub_diag.
    + intros Hk'. destruct (Hm _ _ Hk') as (Hin & v' & Hv').
      split; [by apply list_elem_of_further|]. exists v'.
      rewrite lookup_app_l; [done|]. by apply Hlt.
  - intros e [->|Hin]%elem_of_cons.
    + exists (Entry k v). split.
      * by rewrite lookup_app_r, Nat.sub_diag.
      * simpl. by rewrite lookup_insert_eq.
    + destruct (Hl _ Hin) as (kv & Hkv & Hkey). exists kv. split.
      * rewrite lookup_app_l; [done|]. by apply Hlt.
      * rewrite lookup_insert_ne; [done|]. intros Heq. congruence.
Qed.

Lemma linked_move h l m e :
  linked h l m → e ∈ l → linked h (e :: remove_elem e l) m.
Proof.
  intros (Hnd & Hm & Hl) He. split; [|split].
  - apply NoDup_cons. split; [|by apply NoDup_remove_elem].
    rewrite elem_of_remove_elem. tauto.
  - intros k e' Hk. destruct (Hm _ _ Hk) as (Hin & Hv). split; [|done].
    destruct (decide (e' = e)) as [->|Hne]; [apply list_elem_of_here|].
    apply list_elem_of_further. by apply elem_of_remove_elem.
  - intros e' [->|Hin]%elem_of_cons; [by apply Hl|].
    apply elem_of_remove_elem in Hin as [Hin _]. by apply Hl.
Qed.

Lemma linked_set_value h l m k e v :
  linked h l m → m !! k = Some e → linked (<[e := Entry k v]> h) l m.
Proof.
  intros Hlk Hk. pose proof Hlk as (Hnd & Hm & Hl).
  destruct (Hm _ _ Hk) as (Hin & v0 & Hv0).
  assert (e < length h)%nat as Hlt by by eapply lookup_lt_Some.
  split; [done|]. split.
  - intros k' e' Hk'. destruct (Hm _ _ Hk') as (Hin' & v' & Hv').
    split; [done|]. destruct (decide (e' = e)) as [->|Hne].
    + exists v. rewrite list_lookup_insert_eq by done.
      by rewrite (linked_inj _ _ _ _ _ _ Hlk Hk Hk').
    + exists v'. by rewrite list_lookup_insert_ne.
  - intros e' Hin'. destruct (decide (e' = e)) as [->|Hne].
    + exists (Entry k v). by rewrite list_lookup_insert_eq.
    + destruct (Hl _ Hin') as (kv & Hkv & Hkey). exists kv.
      by rewrite list_lookup_insert_ne.
Qed.

Lemma linked_remove h l m e kv :
  linked h l m → e ∈ l → h !! e = Some kv →
  linked h (remove_elem e l) (delete (key kv) m).
Proof.
  intros Hlk He Hkv. pose proof Hlk as (Hnd & Hm & Hl).
  destruct (Hl _ He) as (kv' & Hkv' & Hkey).
  assert (kv' = kv) as -> by congruence.
  split; [by apply NoDup_remove_elem|]. split.
  - intros k e'. rewrite lookup_delete. case_decide as Hkk; [done|].
    intros Hk. destruct (Hm _ _ Hk) as (Hin & Hv). split; [|done].
    apply elem_of_remove_elem. split; [done|]. intros ->.
    apply Hkk. eapply linked_inj; eauto.
  - intros e' (Hin & Hne)%elem_of_remove_elem.
    destruct (Hl _ Hin) as (kv2 & Hkv2 & Hkey2). exists kv2.
    split; [done|]. rewrite lookup_delete_ne; [done|].
    intros Heq. rewrite <- Heq in Hkey2. congruence.
Qed.

(** ** The operations on an initialised cache, step by step *)

Local Abbreviation St mx cb l m h w :=
  (mkState (mkCache mx cb (Some l) (Some m)) h w).

Lemma entries_St mx cb l m h w : entries (St mx cb l m h w) = entries_of h l.
Proof. reflexivity. Qed.

Lemma Get_miss k s :
  index s !! k = None → Get k s = Some ((nil_value, false), s).
Proof.
  destruct s as [[mx cb l [m|]] h w]; unfold index; simpl; intros Hk;
    unfold_M; simpl; [by rewrite Hk|done].
Qed.

Lemma Get_hit mx cb l m h w k e kv :
  m !! k = Some e → e ∈ l → h !! e = Some kv →
  Get k (St mx cb l m h w) =
  Some ((value kv, true), St mx cb (e :: remove_elem e l) m h w).
Proof.
  intros Hk He Hkv. unfold_M. simpl. rewrite Hk. simpl.
  rewrite decide_True by done. simpl. by rewrite Hkv.
Qed.

Lemma removeElement_eq mx cb l m h w e kv :
  h !! e = Some kv →
  removeElement e (St mx cb l m h w) =
  Some (tt, St mx cb (remove_elem e l) (delete (key kv) m) h (fire cb w kv)).
Proof.
  intros Hkv. unfold_M. simpl. rewrite Hkv. simpl. by destruct cb.
Qed.

Lemma RemoveOldest_back mx cb l m h w e kv :
  last l = Some e → h !! e = Some kv →
  RemoveOldest (St mx cb l m h w) =
  Some (tt, St mx cb (remove_elem e l) (delete (key kv) m) h (fire cb w kv)).
Proof.
  intros Hl Hkv. unfold RemoveOldest, ll_Back, get_self.
  unfold mbind, M_bind, mret, M_ret. simpl. rewrite Hl.
  by apply removeElement_eq.
Qed.

Lemma RemoveOldest_idle s :
  order s = [] → is_Some (cache (self s)) → is_Some (ll (self s)) →
  RemoveOldest s = Some (tt, s).
Proof.
  destruct s as [[mx cb [l|] [m|]] h w]; unfold order; simpl;
    intros Hl [? ?] [? ?]; simplify_eq. by unfold_M.
Qed.

Lemma RemoveOldest_nil s : cache (self s) = None → RemoveOldest s = Some (tt, s).
Proof.
  destruct s as [[mx cb l [m|]] h w]; simpl; intros; simplify_eq.
  by unfold_M.
Qed.

Lemma Remove_miss k s : index s !! k = None → Remove k s = Some (tt, s).
Proof.
  destruct s as [[mx cb l [m|]] h w]; unfold index; simpl; intros Hk;
    unfold_M; simpl; [by rewrite Hk|done].
Qed.

Lemma Remove_hit mx cb l m h w k e kv :
  m !! k = Some e → h !! e = Some kv →
  Remove k (St mx cb l m h w) =
  Some (tt, St mx cb (remove_elem e l) (delete (key kv) m) h (fire cb w kv)).
Proof.
  intros Hk Hkv. unfold Remove, map_lookup, get_self.
  unfold mbind, M_bind, mret, M_ret. simpl. rewrite Hk. simpl.
  by apply removeElement_eq.
Qed.

Lemma Add_nil mx cb h w k v :
  Add k v (mkState (mkCache mx cb None None) h w) =
  Add k v (St mx cb [] ∅ h w).
Proof. by unfold_M. Qed.

Lemma Add_update mx cb l m h w k v e kv :
  m !! k = Some e → e ∈ l → h !! e = Some kv →
  Add k v (St mx cb l m h w) =
  Some (tt, St mx cb (e :: remove_elem e l) m
              (<[e := Entry (key kv) v]> h) w).
Proof.
  intros Hk He Hkv. unfold_M. simpl. rewrite Hk. simpl.
  rewrite decide_True by done. simpl. by rewrite Hkv.
Qed.

Lemma Add_new mx cb l m h w k v :
  m !! k = None →
  Add k v (St mx cb l m h w) =
  let s' := St mx cb (length h :: l) (<[k := length h]> m)
               (h ++ [Entry k v]) w in
  if decide (overflows mx (S (length l))) then RemoveOldest s'
  else Some (tt, s').
Proof.
  intros Hk. unfold overflows, Add, map_lookup, ll_PushFront, map_insert,
    ll_Len, alloc, set_ll, set_cache, put_self, get_self.
  unfold mbind, M_bind, mret, M_ret. simpl. rewrite Hk. simpl.
  destruct (decide (mx ≠ 0)) as [Hmx|Hmx]; simpl.
  - destruct (decide (Z.of_nat (S (length l)) > mx)) as [Hgt|Hgt].
    + rewrite decide_True by done. done.
    + rewrite decide_False by tauto. done.
  - rewrite decide_False by tauto. done.
Qed.

Lemma Len_eq s :
  wf s → Len s = Some (Z.of_nat (length (entries s)), s).
Proof.
  destruct s as [[mx cb [l|] [m|]] h w]; unfold wf, entries, order; simpl;
    intros Hwf; try done; unfold_M; simpl.
  by rewrite (linked_entries_length _ _ _ Hwf).
Qed.

(** ** Residency read off the recency list *)

Lemma wf_cases s :
  wf s →
  (ll (self s) = None ∧ cache (self s) = None) ∨
  (∃ l m, ll (self s) = Some l ∧ cache (self s) = Some m ∧
          linked (heap s) l m).
Proof.
  destruct s as [[mx cb [l|] [m|]] h w]; unfold wf; simpl; intros Hwf;
    try done; [right; eauto|by left].
Qed.

Lemma resident_entries k s : wf s → resident k s ↔ k ∈ key <$> entries s.
Proof.
  intros [[Hl Hm]|(l & m & Hl & Hm & Hlk)]%wf_cases;
    unfold resident, entries, index, order; rewrite Hl, Hm; simpl.
  - rewrite lookup_empty. split; [by intros [? ?]|by intros ?%elem_of_nil].
  - by apply linked_resident.
Qed.

Lemma stored_entries k v s :
  wf s → stored k s = Some v ↔ Entry k v ∈ entries s.
Proof.
  intros [[Hl Hm]|(l & m & Hl & Hm & Hlk)]%wf_cases;
    unfold stored, entries, index, order; rewrite Hl, Hm; simpl.
  - rewrite lookup_empty. simpl. split; [done|by intros ?%elem_of_nil].
  - split.
    + destruct (m !! k) as [e|] eqn:Hk; simpl; [|done].
      destruct (linked_entry _ _ _ _ _ Hlk Hk) as (Hin & v0 & Hv0).
      rewrite Hv0. simpl. intros [= ->].
      apply list_elem_of_omap. by exists e.
    + intros (e & Hin & He)%list_elem_of_omap.
      destruct (linked_elem _ _ _ _ Hlk Hin) as (kv & Hkv & Hkey).
      assert (kv = Entry k v) as -> by congruence. simpl in Hkey.
      rewrite Hkey. simpl. by rewrite He.
Qed.

Lemma stored_resident k v s : stored k s = Some v → resident k s.
Proof.
  unfold stored, resident. destruct (index s !! k); [eauto|done].
Qed.

Lemma resident_stored k s : wf s → resident k s → ∃ v, stored k s = Some v.
Proof.
  intros Hwf Hres. apply resident_entries in Hres; [|done].
  apply list_elem_of_fmap in Hres as ([k' v] & -> & Hin).
  exists v. by apply stored_entries.
Qed.

Lemma not_resident k s : ¬ resident k s ↔ index s !! k = None.
Proof. unfold resident. by rewrite eq_None_not_Some. Qed.

Lemma wf_init_New mx w : wf (init (New mx : @Cache Key _ _ Value World) w).
Proof. apply linked_nil. Qed.

Lemma wf_init_zero mx cb w : wf (init (zero_Cache mx cb) w).
Proof. done. Qed.

Lemma entries_init_New mx w :
  entries (init (New mx : @Cache Key _ _ Value World) w) = [].
Proof. done. Qed.

(** ** What each operation does to the recency list *)

Lemma Get_spec_hit k v s :
  wf s → stored k s = Some v →
  ∃ s', Get k s = Some ((v, true), s') ∧ wf s' ∧
    entries s' = Entry k v :: filter (λ kv, key kv ≠ k) (entries s) ∧
    world s' = world s ∧ heap s' = heap s ∧ index s' = index s ∧
    MaxEntries (self s') = MaxEntries (self s) ∧
    OnEvicted (self s') = OnEvicted (self s).
Proof.
  intros Hwf Hst. pose proof Hwf as [[Hl Hm]|(l & m & Hl & Hm & Hlk)]%wf_cases.
  { unfold stored, index in Hst. rewrite Hm in Hst. simpl in Hst.
    by rewrite lookup_empty in Hst. }
  destruct s as [[mx cb ? ?] h w]. simpl in *. subst.
  unfold stored, index in Hst. simpl in Hst.
  destruct (m !! k) as [e|] eqn:Hk; simpl in Hst; [|done].
  destruct (linked_entry _ _ _ _ _ Hlk Hk) as (Hin & v0 & Hv0).
  rewrite Hv0 in Hst. simpl in Hst. injection Hst as ->.
  eexists. split; [by apply (Get_hit _ _ _ _ _ _ _ _ _ Hk Hin Hv0)|].
  split; [by apply linked_move|]. split; [|done].
  rewrite !entries_St, (entries_of_cons _ _ _ _ Hv0). f_equal.
  apply entries_of_filter. intros e' He'. by eapply linked_key_iff.
Qed.

Lemma Remove_spec_hit k v s :
  wf s → stored k s = Some v →
  ∃ s', Remove k s = Some (tt, s') ∧ wf s' ∧
    entries s' = filter (λ kv, key kv ≠ k) (entries s) ∧
    world s' = fire (OnEvicted (self s)) (world s) (Entry k v) ∧
    index s' = delete k (index s) ∧
    MaxEntries (self s') = MaxEntries (self s) ∧
    OnEvicted (self s') = OnEvicted (self s).
Proof.
  intros Hwf Hst. pose proof Hwf as [[Hl Hm]|(l & m & Hl & Hm & Hlk)]%wf_cases.
  { unfold stored, index in Hst. rewrite Hm in Hst. simpl in Hst.
    by rewrite lookup_empty in Hst. }
  destruct s as [[mx cb ? ?] h w]. simpl in *. subst.
  unfold stored, index in Hst. simpl in Hst.
  destruct (m !! k) as [e|] eqn:Hk; simpl in Hst; [|done].
  destruct (linked_entry _ _ _ _ _ Hlk Hk) as (Hin & v0 & Hv0).
  rewrite Hv0 in Hst. simpl in Hst. injection Hst as ->.
  eexists. split; [by apply (Remove_hit _ _ _ _ _ _ _ _ _ Hk Hv0)|].
  split; [by apply (linked_remove _ _ _ _ _ Hlk Hin Hv0)|]. split; [|done].
  rewrite !entries_St. apply entries_of_filter. intros e' He'. by eapply linked_key_iff.
Qed.

Lemma linked_last h l m es kv0 :
  linked h l m → entries_of h l = es ++ [kv0] →
  ∃ l' e, l = l' ++ [e] ∧ h !! e = Some kv0 ∧ entries_of h l' = es ∧ e ∉ l'.
Proof.
  intros Hlk Hes. destruct (last l) as [e|] eqn:Hlast.
  - apply last_Some in Hlast as [l' ->]. exists l', e.
    destruct (linked_elem _ _ _ e Hlk) as (kv & Hkv & _).
    { apply elem_of_app. right. apply list_elem_of_here. }
    rewrite entries_of_app, (entries_of_cons _ _ _ _ Hkv) in Hes.
    apply app_inj_tail in Hes as [Hes ->].
    destruct Hlk as (Hnd & _). apply NoDup_app in Hnd as (_ & Hdisj & _).
    repeat split; try done. intros Hin. apply (Hdisj _ Hin).
    apply list_elem_of_here.
  - apply last_None in Hlast as ->. by destruct es.
Qed.

Lemma RemoveOldest_spec s :
  wf s →
  ∃ s', RemoveOldest s = Some (tt, s') ∧ wf s' ∧
    MaxEntries (self s') = MaxEntries (self s) ∧
    OnEvicted (self s') = OnEvicted (self s) ∧
    ((entries s = [] ∧ s' = s) ∨
     (∃ es kv0, entries s = es ++ [kv0] ∧ entries s' = es ∧
        world s' = fire (OnEvicted (self s)) (world s) kv0 ∧
        index s' = delete (key kv0) (index s))).
Proof.
  intros Hwf. pose proof Hwf as [[Hl Hm]|(l & m & Hl & Hm & Hlk)]%wf_cases.
  { exists s. rewrite RemoveOldest_nil by done. repeat split; try done.
    left. split; [|done]. unfold entries, order. by rewrite Hl. }
  destruct s as [[mx cb ? ?] h w]. simpl in *. subst.
  destruct (entries (St mx cb l m h w)) as [|kv1 es1] eqn:Hes
    using rev_ind.
  - exists (St mx cb l m h w).
    assert (l = []) as ->.
    { apply (f_equal length) in Hes.
      rewrite entries_St, (linked_entries_length _ _ _ Hlk) in Hes.
      by destruct l. }
    rewrite RemoveOldest_idle by (simpl; eauto).
    split; [done|]. split; [exact Hwf|]. split; [done|]. split; [done|].
    by left.
  - clear IHes1. rewrite entries_St in Hes.
    destruct (linked_last _ _ _ _ _ Hlk Hes) as (l' & e & -> & He & Hl' & Hnin).
    eexists. split.
    { apply RemoveOldest_back; [apply last_snoc|done]. }
    split.
    { apply (linked_remove _ _ _ _ _ Hlk); [|done].
      apply elem_of_app. right. apply list_elem_of_here. }
    split; [done|]. split; [done|]. right. exists es1, kv1.
    rewrite !entries_St, remove_elem_snoc by done. by rewrite Hl'.
Qed.

Lemma Add_spec_update k v s :
  wf s → resident k s →
  ∃ s', Add k v s = Some (tt, s') ∧ wf s' ∧
    entries s' = Entry k v :: filter (λ kv, key kv ≠ k) (entries s) ∧
    world s' = world s ∧ index s' = index s ∧
    MaxEntries (self s') = MaxEntries (self s) ∧
    OnEvicted (self s') = OnEvicted (self s).
Proof.
  intros Hwf [e Hk].
  pose proof Hwf as [[Hl Hm]|(l & m & Hl & Hm & Hlk)]%wf_cases.
  { unfold index in Hk. rewrite Hm in Hk. simpl in Hk.
    by rewrite lookup_empty in Hk. }
  destruct s as [[mx cb ? ?] h w]. simpl in *. subst.
  unfold index in Hk. simpl in Hk.
  destruct (linked_entry _ _ _ _ _ Hlk Hk) as (Hin & v0 & Hv0).
  eexists. split; [by apply (Add_update _ _ _ _ _ _ _ _ _ _ Hk Hin Hv0)|].
  split.
  { apply linked_set_value; [|done]. by apply linked_move. }
  split; [|done]. rewrite !entries_St. simpl.
  assert (e < length h)%nat as Hlt by by eapply lookup_lt_Some.
  rewrite (entries_of_cons _ _ _ (Entry k v))
    by by rewrite list_lookup_insert_eq.
  f_equal. rewrite <- (entries_of_ext h).
  - apply entries_of_filter. intros e' He'. by eapply linked_key_iff.
  - intros e' [_ Hne]%elem_of_remove_elem. by rewrite list_lookup_insert_ne.
Qed.

(** An [Add] of an absent key pushes the entry to the front and then, when
    the capacity test succeeds, calls [RemoveOldest] on the result. *)
Lemma Add_new_mid k v s :
  wf s → ¬ resident k s →
  ∃ mid, wf mid ∧ entries mid = Entry k v :: entries s ∧
    world mid = world s ∧
    MaxEntries (self mid) = MaxEntries (self s) ∧
    OnEvicted (self mid) = OnEvicted (self s) ∧
    index mid = <[k := length (heap s)]> (index s) ∧
    Add k v s =
    if decide (overflows (MaxEntries (self s)) (S (length (entries s))))
    then RemoveOldest mid else Some (tt, mid).
Proof.
  intros Hwf Hk%not_resident.
  assert (∃ l m, linked (heap s) l m ∧ m !! k = None ∧
            entries s = entries_of (heap s) l ∧ index s = m ∧
            Add k v s =
            Add k v (St (MaxEntries (self s)) (OnEvicted (self s)) l m
                       (heap s) (world s)))
    as (l & m & Hlk & Hmk & Hes & Hidx & ->).
  { pose proof Hwf as [[Hl Hm]|(l & m & Hl & Hm & Hlk)]%wf_cases;
      destruct s as [[mx cb ? ?] h w]; simpl in *; subst.
    - exists [], ∅. split; [apply linked_nil|]. split; [apply lookup_empty|].
      split; [done|]. split; [done|]. apply Add_nil.
    - exists l, m. split; [done|]. split; [exact Hk|]. by split. }
  rewrite Hes, Hidx. clear Hes Hidx Hk Hwf.
  destruct s as [[mx cb ol om] h w]. simpl in *.
  rewrite (linked_entries_length _ _ _ Hlk), Add_new by done. simpl.
  exists (St mx cb (length h :: l) (<[k:=length h]> m) (h ++ [Entry k v]) w).
  split; [by apply linked_push|]. split; [|done].
  rewrite entries_St.
  rewrite (entries_of_cons _ _ _ (Entry k v))
    by by rewrite lookup_app_r, Nat.sub_diag.
  f_equal. symmetry. apply entries_of_ext. intros e He.
  destruct (linked_elem _ _ _ _ Hlk He) as (kv & Hkv & _).
  rewrite lookup_app_l; [done|]. by eapply lookup_lt_Some.
Qed.

Lemma Add_spec_new k v s :
  wf s → ¬ resident k s →
  ∃ s', Add k v s = Some (tt, s') ∧ wf s' ∧
    MaxEntries (self s') = MaxEntries (self s) ∧
    OnEvicted (self s') = OnEvicted (self s) ∧
    ((¬ overflows (MaxEntries (self s)) (S (length (entries s))) ∧
      entries s' = Entry k v :: entries s ∧ world s' = world s) ∨
     (overflows (MaxEntries (self s)) (S (length (entries s))) ∧
      ∃ es kv0, Entry k v :: entries s = es ++ [kv0] ∧ entries s' = es ∧
        world s' = fire (OnEvicted (self s)) (world s) kv0 ∧
        ¬ resident (key kv0) s')).
Proof.
  intros Hwf Hk.
  destruct (Add_new_mid k v s Hwf Hk)
    as (mid & Hwfm & Hmid & Hw & Hmx & Hcb & _ & ->).
  case_decide as Hov.
  - destruct (RemoveOldest_spec mid Hwfm)
      as (s' & -> & Hwf' & Hmx' & Hcb' & [[Hnil _]|Hev]).
    { by rewrite Hmid in Hnil. }
    destruct Hev as (es & kv0 & Hes & Hes' & Hw' & Hidx).
    exists s'. split; [done|]. split; [done|]. split; [congruence|].
    split; [congruence|]. right. split; [done|]. exists es, kv0.
    rewrite <- Hmid. split; [done|]. split; [done|]. split; [congruence|].
    apply not_resident. rewrite Hidx. apply lookup_delete_eq.
  - exists mid. split; [done|]. split; [done|]. split; [done|].
    split; [done|]. left. by rewrite Hmid.
Qed.

(** Every [Add] in one statement: the entries that end up resident,
    followed by the evicted ones, are the new entry in front of the other
    old entries; at most one entry is evicted, and the callback runs on
    exactly the evicted ones. *)
Lemma Add_effect k v s :
  wf s →
  ∃ s' evicted, Add k v s = Some (tt, s') ∧ wf s' ∧
    MaxEntries (self s') = MaxEntries (self s) ∧
    OnEvicted (self s') = OnEvicted (self s) ∧
    (length evicted ≤ 1)%nat ∧
    entries s' ++ evicted =
      Entry k v :: filter (λ kv, key kv ≠ k) (entries s) ∧
    world s' = fire_all (OnEvicted (self s)) (world s) evicted ∧
    (evicted ≠ [] ↔
     ¬ resident k s ∧
     overflows (MaxEntries (self s)) (S (length (entries s)))).
Proof.
  intros Hwf. destruct (decide (resident k s)) as [Hres|Hres].
  - destruct (Add_spec_update k v s Hwf Hres)
      as (s' & HAdd & Hwf' & Hes & Hw & _ & Hmx & Hcb).
    exists s', []. rewrite app_nil_r. simpl.
    split; [done|]. split; [done|]. split; [done|]. split; [done|].
    split; [lia|]. split; [done|]. split; [done|]. split; [done|].
    by intros [? _].
  - assert (filter (λ kv, key kv ≠ k) (entries s) = entries s) as ->.
    { apply filter_keep. apply Forall_forall. intros kv Hkv Heq.
      apply Hres. apply resident_entries; [done|].
      apply list_elem_of_fmap. eauto. }
    destruct (Add_spec_new k v s Hwf Hres)
      as (s' & HAdd & Hwf' & Hmx & Hcb &
          [(Hov & Hes & Hw)|(Hov & es & kv0 & Hes & Hes' & Hw & _)]).
    + exists s', []. rewrite app_nil_r. simpl.
      split; [done|]. split; [done|]. split; [done|]. split; [done|].
      split; [lia|]. split; [done|]. split; [done|]. split; [done|].
      by intros [_ ?].
    + exists s', [kv0]. simpl.
      split; [done|]. split; [done|]. split; [done|]. split; [done|].
      split; [lia|]. split; [by rewrite Hes', Hes|]. split; [done|].
      done.
Qed.

(** ** [Clear] *)

Lemma fire_all_None w (kvs : list (@entry Key Value)) :
  fire_all None w kvs = w.
Proof. unfold fire_all. by induction kvs. Qed.

Lemma evict_each_eq ord f c h w :
  OnEvicted c = Some f →
  (∀ e, e ∈ ord.*2 → is_Some (h !! e)) →
  evict_each ord (mkState c h w) =
  Some (tt, mkState c h (fire_all (Some f) w (entries_of h ord.*2))).
Proof.
  intros Hf. revert w. induction ord as [|[k e] ord IH]; intros w Hall.
  { done. }
  destruct (Hall e) as [kv Hkv]; [apply list_elem_of_here|].
  rewrite fmap_cons. simpl snd. rewrite (entries_of_cons _ _ _ _ Hkv).
  simpl. unfold deref, get_self, call. unfold mbind, M_bind. simpl.
  rewrite Hkv. simpl. rewrite Hf. simpl. rewrite IH; [done|].
  intros e' He'. apply Hall. rewrite fmap_cons. by apply list_elem_of_further.
Qed.

Lemma range_order_elements h l m ord :
  linked h l m → ord ≡ₚ map_to_list m → ord.*2 ≡ₚ l.
Proof.
  intros Hlk Hord. pose proof Hlk as (Hnd & Hm & Hl).
  apply NoDup_Permutation; [|done|].
  - apply NoDup_fmap_2_strong.
    + intros [k1 e1] [k2 e2] H1 H2 Heq. simpl in Heq. subst e2.
      rewrite Hord in H1, H2.
      apply elem_of_map_to_list in H1, H2. f_equal.
      eapply linked_inj; eauto.
    + rewrite Hord. apply NoDup_map_to_list.
  - intros e. rewrite list_elem_of_fmap. split.
    + intros ([k e'] & -> & Hin). rewrite Hord in Hin.
      apply elem_of_map_to_list in Hin. by apply (Hm k).
    + intros Hin. destruct (Hl _ Hin) as (kv & Hkv & Hkey).
      exists (key kv, e). split; [done|]. rewrite Hord.
      by apply elem_of_map_to_list.
Qed.

Lemma Clear_spec ord s :
  wf s → range_order (self s) ord →
  ∃ s' evs, Clear ord s = Some (tt, s') ∧
    self s' = zero_Cache (MaxEntries (self s)) (OnEvicted (self s)) ∧
    heap s' = heap s ∧
    evs ≡ₚ entries s ∧
    world s' = fire_all (OnEvicted (self s)) (world s) evs.
Proof.
  intros Hwf Hord. unfold range_order in Hord.
  assert (∃ l, ord.*2 ≡ₚ l ∧ entries s = entries_of (heap s) l ∧
            ∀ e, e ∈ l → is_Some (heap s !! e)) as (l & Hperm & Hes & Hall).
  { pose proof Hwf as [[Hl Hm]|(l & m & Hl & Hm & Hlk)]%wf_cases.
    - exists []. rewrite Hm in Hord. simpl in Hord.
      rewrite map_to_list_empty in Hord. apply Permutation_nil_r in Hord.
      subst ord. split; [done|]. unfold entries, order. rewrite Hl.
      split; [done|]. by intros e ?%elem_of_nil.
    - exists l. rewrite Hm in Hord. simpl in Hord.
      split; [by eapply range_order_elements|].
      unfold entries, order. rewrite Hl. split; [done|].
      intros e He. destruct (linked_elem _ _ _ _ Hlk He) as (kv & -> & _).
      eauto. }
  destruct s as [[mx cb ol om] h w]. simpl in *.
  exists (mkState (zero_Cache mx cb) h
            (fire_all cb w (entries_of h ord.*2))), (entries_of h ord.*2).
  split.
  - unfold Clear, get_self. unfold mbind at 1 2 3, M_bind at 1 2 3. simpl.
    destruct cb as [f|].
    + rewrite (evict_each_eq _ f) by
        (done || (intros e He; apply Hall; by rewrite <- Hperm)).
      done.
    + by rewrite fire_all_None.
  - split; [done|]. split; [done|]. split; [|done].
    rewrite Hes. unfold entries_of. by rewrite Hperm.
Qed.

(** ** Preservation of the invariant, and lengths *)

Lemma filter_key_length k s :
  wf s → resident k s →
  S (length (filter (λ kv, key kv ≠ k) (entries s))) = length (entries s).
Proof.
  intros Hwf [e Hk].
  pose proof Hwf as [[Hl Hm]|(l & m & Hl & Hm & Hlk)]%wf_cases.
  { unfold index in Hk. rewrite Hm in Hk. simpl in Hk.
    by rewrite lookup_empty in Hk. }
  unfold index in Hk. rewrite Hm in Hk. simpl in Hk.
  unfold entries, order. rewrite Hl. simpl.
  destruct (linked_entry _ _ _ _ _ Hlk Hk) as (Hin & v0 & Hv0).
  rewrite <- (entries_of_filter _ _ e)
    by (intros e' He'; by eapply linked_key_iff).
  rewrite (linked_entries_length _ _ _ Hlk).
  rewrite entries_of_length.
  - apply length_remove_elem; [apply Hlk|done].
  - intros e' [He' _]%elem_of_remove_elem.
    destruct (linked_elem _ _ _ _ Hlk He') as (kv & -> & _). eauto.
Qed.

Lemma wf_Add k v s s' : wf s → Add k v s = Some (tt, s') → wf s'.
Proof.
  intros Hwf HAdd. destruct (Add_effect k v s Hwf) as (s2 & ev & H2 & Hwf2 & _).
  congruence.
Qed.

Lemma wf_Get k s r s' : wf s → Get k s = Some (r, s') → wf s'.
Proof.
  intros Hwf HGet. destruct (decide (resident k s)) as [Hres|Hres].
  - destruct (resident_stored k s Hwf Hres) as [v Hv].
    destruct (Get_spec_hit k v s Hwf Hv) as (s2 & H2 & Hwf2 & _). congruence.
  - apply not_resident in Hres. rewrite (Get_miss _ _ Hres) in HGet. congruence.
Qed.

Lemma Add_front k v s :
  wf s → 0 ≤ MaxEntries (self s) →
  ∃ s' es, Add k v s = Some (tt, s') ∧ wf s' ∧ entries s' = Entry k v :: es ∧
    MaxEntries (self s') = MaxEntries (self s) ∧
    OnEvicted (self s') = OnEvicted (self s).
Proof.
  intros Hwf Hmx. destruct (decide (resident k s)) as [Hres|Hres].
  - destruct (Add_spec_update k v s Hwf Hres)
      as (s' & HAdd & Hwf' & Hes & _ & _ & Hmx' & Hcb'). eauto 10.
  - destruct (Add_spec_new k v s Hwf Hres)
      as (s' & HAdd & Hwf' & Hmx' & Hcb' &
          [(_ & Hes & _)|([Hne Hgt] & es & kv0 & Hes & Hes' & _)]);
      [eauto 10|].
    destruct es as [|kv1 es].
    + destruct (entries s); [simpl in Hgt; lia|done].
    + injection Hes as <- Hes. eauto 10.
Qed.

Lemma stored_front k v s es : wf s → entries s = Entry k v :: es → stored k s = Some v.
Proof.
  intros Hwf Hes. apply stored_entries; [done|]. rewrite Hes.
  apply list_elem_of_here.
Qed.

(** ** The claims *)

(** C7: on a cache whose list and map are still nil (a zero [Cache], with
    any values in its exported fields), [Get] returns the zero value and
    false, [Len] returns 0, and [Remove] and [RemoveOldest] return without
    a panic; all four leave the state, and so the world of the callback,
    as it was. *)
Theorem zero_value_safe mx cb h w k :
  let s := mkState (zero_Cache mx cb) h w in
  Get k s = Some ((nil_value, false), s) ∧
  Len s = Some (0, s) ∧
  Remove k s = Some (tt, s) ∧
  RemoveOldest s = Some (tt, s).
Proof. done. Qed.

(** C4: in a well-formed state, [Get] of a resident key returns the stored
    value and true and moves the key's entry to the front of the recency
    list, the other entries keeping their order; index, stored entries and
    world stay as they were.  [Get] of an absent key returns the zero value
    and false and leaves the whole state unchanged. *)
Theorem Get_hit_and_miss k s :
  wf s →
  (resident k s →
   ∃ v s', stored k s = Some v ∧ Get k s = Some ((v, true), s') ∧ wf s' ∧
     entries s' = Entry k v :: filter (λ kv, key kv ≠ k) (entries s) ∧
     index s' = index s ∧ heap s' = heap s ∧ world s' = world s ∧
     MaxEntries (self s') = MaxEntries (self s) ∧
     OnEvicted (self s') = OnEvicted (self s)) ∧
  (¬ resident k s → Get k s = Some ((nil_value, false), s)).
Proof.
  intros Hwf. split.
  - intros Hres. destruct (resident_stored k s Hwf Hres) as [v Hv].
    destruct (Get_spec_hit k v s Hwf Hv)
      as (s' & HGet & Hwf' & Hes & Hw & Hh & Hi & Hmx & Hcb).
    exists v, s'. by repeat split.
  - intros Hk%not_resident. by apply Get_miss.
Qed.

(** C5: in a well-formed state, [Remove] of a resident key deletes its
    entry and nothing else and the callback, when set, runs once, on the
    removed key and value; [Remove] of an absent key changes nothing.  A
    second [Remove] of the same key right after the first changes nothing,
    so it runs no callback. *)
Theorem Remove_idempotent k s :
  wf s →
  ∃ s', Remove k s = Some (tt, s') ∧ wf s' ∧ ¬ resident k s' ∧
    (∀ v, stored k s = Some v →
       entries s' = filter (λ kv, key kv ≠ k) (entries s) ∧
       world s' = fire (OnEvicted (self s)) (world s) (Entry k v)) ∧
    (¬ resident k s → s' = s) ∧
    Remove k s' = Some (tt, s').
Proof.
  intros Hwf. destruct (decide (resident k s)) as [Hres|Hres].
  - destruct (resident_stored k s Hwf Hres) as [v Hv].
    destruct (Remove_spec_hit k v s Hwf Hv)
      as (s' & HRem & Hwf' & Hes & Hw & Hi & _).
    assert (index s' !! k = None) as Hgone.
    { rewrite Hi. apply lookup_delete_eq. }
    exists s'. split; [done|]. split; [done|].
    split; [by apply not_resident|]. split.
    { intros v' Hv'. split; [done|]. congruence. }
    split; [done|]. by apply Remove_miss.
  - pose proof Hres as Hk%not_resident.
    exists s. rewrite (Remove_miss _ _ Hk). split; [done|]. split; [done|].
    split; [done|]. split; [|done].
    intros v Hv. destruct Hres. by eapply stored_resident.
Qed.

Lemma range_order_exists c : ∃ ord, range_order c ord.
Proof. exists (map_to_list (default ∅ (cache c))). by unfold range_order. Qed.

Lemma Len_nil s :
  cache (self s) = None → Len s = Some (0, s).
Proof. destruct s as [[mx cb l [m|]] h w]; simpl; [done|]. by unfold_M. Qed.

(** C6: [Clear] of a well-formed state, whatever order the loop over the
    map takes, leaves a cache whose [Len] is 0 and whose [Get] misses on
    every key, the keys resident before included; the callback, when set,
    has run once on each entry that was resident, the entries taken in some
    order.  Some order always exists. *)
Theorem Clear_complete s :
  wf s →
  (∃ ord, range_order (self s) ord) ∧
  ∀ ord, range_order (self s) ord →
    ∃ s' evs, Clear ord s = Some (tt, s') ∧
      Len s' = Some (0, s') ∧
      (∀ k, Get k s' = Some ((nil_value, false), s')) ∧
      evs ≡ₚ entries s ∧
      world s' = fire_all (OnEvicted (self s)) (world s) evs.
Proof.
  intros Hwf. split; [apply range_order_exists|]. intros ord Hord.
  destruct (Clear_spec ord s Hwf Hord) as (s' & evs & HClear & Hself & _ & Hevs & Hw).
  exists s', evs. split; [done|].
  assert (cache (self s') = None) as Hnil by by rewrite Hself.
  split; [by apply Len_nil|]. split; [|done].
  intros k. apply Get_miss. unfold index. rewrite Hnil. apply lookup_empty.
Qed.

(** ** Sequences of [Add] *)

Lemma Add_capacity k v s s' :
  wf s → 0 < MaxEntries (self s) →
  Z.of_nat (length (entries s)) ≤ MaxEntries (self s) →
  Add k v s = Some (tt, s') →
  Z.of_nat (length (entries s')) ≤ MaxEntries (self s).
Proof.
  intros Hwf Hpos Hlen HAdd.
  destruct (decide (resident k s)) as [Hres|Hres].
  - destruct (Add_spec_update k v s Hwf Hres) as (s2 & H2 & _ & Hes & _).
    assert (s2 = s') as -> by congruence. rewrite Hes. simpl.
    rewrite (filter_key_length k s Hwf Hres). lia.
  - destruct (Add_spec_new k v s Hwf Hres)
      as (s2 & H2 & _ & _ & _ &
          [(Hov & Hes & _)|(_ & es & kv0 & Hes & Hes' & _)]);
      assert (s2 = s') as -> by congruence.
    + rewrite Hes. simpl. unfold overflows in Hov.
      destruct (decide (Z.of_nat (S (length (entries s)))
                        > MaxEntries (self s))); [|lia].
      destruct Hov. split; [lia|done].
    + apply (f_equal length) in Hes. rewrite length_app in Hes.
      simpl in Hes. rewrite Hes'. lia.
Qed.

Lemma RemoveOldest_initialised mx cb l m h w s' :
  linked h l m → RemoveOldest (St mx cb l m h w) = Some (tt, s') →
  is_Some (ll (self s')) ∧ is_Some (cache (self s')).
Proof.
  intros Hlk. destruct (last l) as [e|] eqn:Hlast.
  - destruct (linked_elem _ _ _ e Hlk) as (kv & Hkv & _).
    { apply last_Some in Hlast as [l' ->]. apply elem_of_app. right.
      apply list_elem_of_here. }
    rewrite (RemoveOldest_back _ _ _ _ _ _ _ _ Hlast Hkv).
    intros [= <-]. simpl. eauto.
  - apply last_None in Hlast as ->.
    rewrite RemoveOldest_idle by (simpl; eauto). intros [= <-]. simpl. eauto.
Qed.

(** [Add] leaves list and map allocated, also when it found them nil. *)
Lemma Add_initialised k v s s' :
  wf s → Add k v s = Some (tt, s') →
  is_Some (ll (self s')) ∧ is_Some (cache (self s')).
Proof.
  intros Hwf.
  assert (∃ mx cb l m h w, linked h l m ∧
            Add k v s = Add k v (St mx cb l m h w))
    as (mx & cb & l & m & h & w & Hlk & ->).
  { pose proof Hwf as [[Hl Hm]|(l & m & Hl & Hm & Hlk)]%wf_cases;
      destruct s as [[mx cb ? ?] h w]; simpl in *; subst.
    - exists mx, cb, [], ∅, h, w. split; [apply linked_nil|apply Add_nil].
    - exists mx, cb, l, m, h, w. by split. }
  destruct (m !! k) as [e|] eqn:Hk.
  - destruct (linked_entry _ _ _ _ _ Hlk Hk) as (Hin & v0 & Hv0).
    rewrite (Add_update _ _ _ _ _ _ _ _ _ _ Hk Hin Hv0).
    intros [= <-]. simpl. eauto.
  - rewrite Add_new by done. simpl. case_decide.
    + apply RemoveOldest_initialised. by apply linked_push.
    + intros [= <-]. simpl. eauto.
Qed.

Lemma add_all_spec kvs s :
  wf s →
  ∃ s', add_all kvs s = Some (tt, s') ∧ wf s' ∧
    MaxEntries (self s') = MaxEntries (self s) ∧
    OnEvicted (self s') = OnEvicted (self s) ∧
    (kvs ≠ [] → is_Some (ll (self s')) ∧ is_Some (cache (self s'))) ∧
    (0 < MaxEntries (self s) →
     Z.of_nat (length (entries s)) ≤ MaxEntries (self s) →
     Z.of_nat (length (entries s')) ≤ MaxEntries (self s)).
Proof.
  revert s. induction kvs as [|[k v] kvs IH]; intros s Hwf.
  { exists s. by repeat split. }
  destruct (Add_effect k v s Hwf) as (s1 & ev & HAdd & Hwf1 & Hmx1 & Hcb1 & _).
  destruct (IH s1 Hwf1) as (s' & Hall & Hwf' & Hmx' & Hcb' & Hinit & Hcap).
  exists s'. split.
  { simpl. unfold mbind, M_bind. by rewrite HAdd. }
  split; [done|]. split; [congruence|]. split; [congruence|]. split.
  - intros _. destruct kvs as [|p kvs]; [|by apply Hinit].
    injection Hall as <-. exact (Add_initialised k v s s1 Hwf HAdd).
  - intros Hpos Hlen. rewrite <- Hmx1. apply Hcap; rewrite Hmx1; [done|].
    by eapply Add_capacity.
Qed.

(** C10: [Clear] sets list and map to nil and leaves [MaxEntries],
    [OnEvicted] and the stored elements as they were.  Any later [Add], also
    after further [Add]s, finds or makes list and map allocated again,
    evicts exactly when the old [MaxEntries] is exceeded, keeps the length
    within a positive old [MaxEntries], and runs the old callback on what
    it evicts. *)
Theorem Clear_keeps_configuration ord s :
  wf s → range_order (self s) ord →
  ∃ s', Clear ord s = Some (tt, s') ∧
    ll (self s') = None ∧ cache (self s') = None ∧
    MaxEntries (self s') = MaxEntries (self s) ∧
    OnEvicted (self s') = OnEvicted (self s) ∧
    heap s' = heap s ∧
    ∀ kvs k v, ∃ s1 s2 evicted,
      add_all kvs s' = Some (tt, s1) ∧ Add k v s1 = Some (tt, s2) ∧
      is_Some (ll (self s2)) ∧ is_Some (cache (self s2)) ∧
      MaxEntries (self s2) = MaxEntries (self s) ∧
      OnEvicted (self s2) = OnEvicted (self s) ∧
      (0 < MaxEntries (self s) →
       Z.of_nat (length (entries s2)) ≤ MaxEntries (self s)) ∧
      (length evicted ≤ 1)%nat ∧
      entries s2 ++ evicted =
        Entry k v :: filter (λ kv, key kv ≠ k) (entries s1) ∧
      world s2 = fire_all (OnEvicted (self s)) (world s1) evicted ∧
      (evicted ≠ [] ↔
       ¬ resident k s1 ∧
       overflows (MaxEntries (self s)) (S (length (entries s1)))).
Proof.
  intros Hwf Hord.
  destruct (Clear_spec ord s Hwf Hord)
    as (s' & evs & HClear & Hself & Hheap & _ & _).
  exists s'. split; [done|]. rewrite Hself. simpl.
  split; [done|]. split; [done|]. split; [done|]. split; [done|].
  split; [done|]. intros kvs k v.
  assert (wf s') as Hwf'.
  { unfold wf. by rewrite Hself. }
  assert (entries s' = []) as Hes'.
  { unfold entries, order. by rewrite Hself. }
  assert (MaxEntries (self s') = MaxEntries (self s)) as Hmx'
    by by rewrite Hself.
  assert (OnEvicted (self s') = OnEvicted (self s)) as Hcb'
    by by rewrite Hself.
  destruct (add_all_spec kvs s' Hwf')
    as (s1 & Hall & Hwf1 & Hmx1 & Hcb1 & _ & Hcap1).
  destruct (Add_effect k v s1 Hwf1)
    as (s2 & evicted & HAdd & Hwf2 & Hmx2 & Hcb2 & Hlen & Hes & Hw & Hiff).
  exists s1, s2, evicted. split; [done|]. split; [done|].
  destruct (Add_initialised k v s1 s2 Hwf1 HAdd) as [Hll Hcache].
  split; [done|]. split; [done|]. split; [congruence|]. split; [congruence|].
  split.
  { intros Hpos. rewrite <- Hmx', <- Hmx1.
    apply (Add_capacity k v s1 s2); [done|lia| |done].
    rewrite Hmx1. apply Hcap1; [lia|]. rewrite Hes'. simpl. lia. }
  split; [done|]. split; [done|]. split; [congruence|].
  by rewrite <- Hmx', <- Hmx1.
Qed.

(** C9: with a negative [MaxEntries], [Add] of an absent key passes the
    capacity test and is the call of [RemoveOldest] on the cache with the
    new entry pushed to the front and bound in the map; that call removes
    the back entry from list and map and runs the callback on it, and
    list and map stay in correspondence.  When nothing was resident, the
    back entry is the one just added: the key is absent again, [Get]
    misses on it, and the cache ends with length 0. *)
Theorem negative_MaxEntries_evicts k v s :
  wf s → MaxEntries (self s) < 0 → ¬ resident k s →
  overflows (MaxEntries (self s)) (S (length (entries s))) ∧
  ∃ mid s' es kv0,
    wf mid ∧ entries mid = Entry k v :: entries s ∧ world mid = world s ∧
    stored k mid = Some v ∧
    Add k v s = RemoveOldest mid ∧ RemoveOldest mid = Some (tt, s') ∧
    wf s' ∧
    Entry k v :: entries s = es ++ [kv0] ∧ entries s' = es ∧
    world s' = fire (OnEvicted (self s)) (world s) kv0 ∧
    stored (key kv0) mid = Some (value kv0) ∧
    ¬ resident (key kv0) s' ∧
    (entries s = [] →
     kv0 = Entry k v ∧ entries s' = [] ∧ Len s' = Some (0, s') ∧
     ¬ resident k s' ∧ Get k s' = Some ((nil_value, false), s')).
Proof.
  intros Hwf Hneg Hk.
  assert (overflows (MaxEntries (self s)) (S (length (entries s)))) as Hov.
  { split; lia. }
  split; [done|].
  destruct (Add_new_mid k v s Hwf Hk)
    as (mid & Hwfm & Hmid & Hw & Hmx & Hcb & _ & HAdd).
  rewrite decide_True in HAdd by done.
  destruct (RemoveOldest_spec mid Hwfm)
    as (s' & HRem & Hwf' & _ & _ & [[Hnil _]|Hev]).
  { by rewrite Hmid in Hnil. }
  destruct Hev as (es & kv0 & Hes & Hes' & Hw' & Hidx).
  assert (¬ resident (key kv0) s') as Hgone.
  { apply not_resident. rewrite Hidx. apply lookup_delete_eq. }
  exists mid, s', es, kv0.
  split; [done|]. split; [done|]. split; [done|].
  split; [by eapply stored_front|]. split; [by rewrite HAdd|].
  split; [done|]. split; [done|]. split; [by rewrite <- Hmid|].
  split; [done|]. split; [by rewrite <- Hw, <- Hcb|]. split.
  { apply stored_entries; [done|]. rewrite Hes, elem_of_app. right.
    destruct kv0. apply list_elem_of_here. }
  split; [done|].
  intros Hempty. rewrite Hmid, Hempty in Hes.
  destruct es as [|kv1 es].
  - injection Hes as <-. split; [done|]. split; [done|].
    split; [rewrite (Len_eq _ Hwf'); by rewrite Hes'|].
    split; [done|]. apply Get_miss. by apply not_resident.
  - apply (f_equal length) in Hes. rewrite length_cons, length_app in Hes.
    simpl in Hes. lia.
Qed.

(** ** The unbounded cache *)

Lemma elem_of_keys_filter k k' (es : list (@entry Key Value)) :
  k' ∈ key <$> filter (λ kv, key kv ≠ k) es ↔ k' ≠ k ∧ k' ∈ key <$> es.
Proof.
  rewrite !list_elem_of_fmap. split.
  - intros (kv & -> & [Hne Hin]%list_elem_of_filter). eauto.
  - intros (Hne & kv & -> & Hin). exists kv. split; [done|].
    by apply list_elem_of_filter.
Qed.

Lemma Add_unbounded k v s :
  wf s → MaxEntries (self s) = 0 →
  ∃ s', Add k v s = Some (tt, s') ∧ wf s' ∧ MaxEntries (self s') = 0 ∧
    world s' = world s ∧
    entries s' = Entry k v :: filter (λ kv, key kv ≠ k) (entries s).
Proof.
  intros Hwf Hmx.
  destruct (Add_effect k v s Hwf)
    as (s' & evicted & HAdd & Hwf' & Hmx' & _ & _ & Hes & Hw & Hiff).
  destruct evicted as [|kv0 evicted].
  - rewrite app_nil_r in Hes. exists s'. by rewrite Hmx', Hmx.
  - destruct Hiff as [Hiff _]. destruct Hiff as [_ [Hne _]]; [done|].
    by rewrite Hmx in Hne.
Qed.

(** C8: with [MaxEntries] 0 the capacity test of [Add] fails for every
    length, and any sequence of [Add]s runs without a callback invocation
    and without removing a key: the keys resident afterwards are those
    resident before and those added.  When the added keys are distinct and
    were absent, all of them are resident, newest first, in front of the
    old entries. *)
Theorem unbounded_never_evicts kvs s :
  wf s → MaxEntries (self s) = 0 →
  (∀ n, ¬ overflows (MaxEntries (self s)) n) ∧
  ∃ s', add_all kvs s = Some (tt, s') ∧ wf s' ∧ world s' = world s ∧
    (∀ k, resident k s' ↔ resident k s ∨ k ∈ kvs.*1) ∧
    (NoDup kvs.*1 → (∀ k, k ∈ kvs.*1 → ¬ resident k s) →
     entries s' = reverse (entry_of <$> kvs) ++ entries s).
Proof.
  intros Hwf Hmx. split.
  { intros n [Hne _]. by rewrite Hmx in Hne. }
  revert s Hwf Hmx. induction kvs as [|[k v] kvs IH]; intros s Hwf Hmx.
  { exists s. split; [done|]. split; [done|]. split; [done|]. split; [|done].
    intros k. rewrite fmap_nil, elem_of_nil. tauto. }
  destruct (Add_unbounded k v s Hwf Hmx) as (s1 & HAdd & Hwf1 & Hmx1 & Hw1 & Hes1).
  destruct (IH s1 Hwf1 Hmx1) as (s' & Hall & Hwf' & Hw' & Hres & Hfresh).
  assert (∀ k', resident k' s1 ↔ k' = k ∨ resident k' s) as Hres1.
  { intros k'. rewrite !resident_entries by done. rewrite Hes1, fmap_cons.
    rewrite elem_of_cons, elem_of_keys_filter. simpl.
    destruct (decide (k' = k)); tauto. }
  exists s'. split.
  { simpl. unfold mbind, M_bind. by rewrite HAdd. }
  split; [done|]. split; [congruence|]. split.
  - intros k'. rewrite Hres, Hres1, fmap_cons, elem_of_cons. simpl. tauto.
  - rewrite fmap_cons. simpl. intros [Hk Hnd]%NoDup_cons Habs.
    rewrite Hfresh.
    + rewrite Hes1, reverse_cons, <- app_assoc. simpl. do 2 f_equal.
      apply filter_keep. apply Forall_forall. intros kv Hkv Heq.
      apply (Habs k); [apply list_elem_of_here|].
      apply resident_entries; [done|]. apply list_elem_of_fmap. eauto.
    + done.
    + intros k' Hk'. rewrite Hres1. intros [->|Hin]; [done|].
      apply (Habs k'); [by apply list_elem_of_further|done].
Qed.

(** C2: a cache made by [New] with a capacity [C > 0] (and any callback
    assigned to it) runs every sequence of [Add]s to the end, and [Len]
    then returns at most [C].  In the state reached, one more [Add] evicts
    at most one entry: the entries it leaves, followed by the evicted ones,
    are the new entry and the other old entries, and the callback runs on
    the evicted ones only. *)
Theorem capacity_invariant C cb w kvs :
  0 < C →
  ∃ s n, add_all kvs (init (with_OnEvicted cb (New C)) w) = Some (tt, s) ∧
    wf s ∧ Len s = Some (n, s) ∧ n ≤ C ∧
    ∀ k v, ∃ s' evicted, Add k v s = Some (tt, s') ∧
      (length evicted ≤ 1)%nat ∧
      entries s' ++ evicted =
        Entry k v :: filter (λ kv, key kv ≠ k) (entries s) ∧
      world s' = fire_all cb (world s) evicted.
Proof.
  intros Hpos.
  set (s0 := init (with_OnEvicted cb (New C)) w).
  assert (wf s0) as Hwf0 by apply linked_nil.
  destruct (add_all_spec kvs s0 Hwf0) as (s & Hall & Hwf & Hmx & Hcb & _ & Hcap).
  exists s, (Z.of_nat (length (entries s))).
  split; [done|]. split; [done|]. split; [by apply Len_eq|]. split.
  { apply Hcap; simpl; lia. }
  intros k v.
  destruct (Add_effect k v s Hwf)
    as (s' & evicted & HAdd & _ & _ & _ & Hlen & Hes & Hw & _).
  exists s', evicted. rewrite Hcb in Hw. done.
Qed.

(** C3, amended: in a well-formed state, [Add] of a resident key keeps the
    key on its list element, binds it to the new value, moves its entry to
    the front, and leaves [Len] and the world of the callback as they
    were; [Get] then returns the new value and true.  On a cache whose
    [MaxEntries] is not negative, [Add(k,v1); Add(k,v2); Get(k)] returns
    [(v2, true)], and the second [Add] changes neither [Len] nor the
    world. *)
Theorem Add_update_semantics k v1 v2 s :
  wf s →
  (resident k s →
   ∃ s2 s3 n, Add k v2 s = Some (tt, s2) ∧
     entries s2 = Entry k v2 :: filter (λ kv, key kv ≠ k) (entries s) ∧
     index s2 = index s ∧ stored k s2 = Some v2 ∧
     Len s = Some (n, s) ∧ Len s2 = Some (n, s2) ∧
     world s2 = world s ∧
     Get k s2 = Some ((v2, true), s3)) ∧
  (0 ≤ MaxEntries (self s) →
   ∃ s1 s2 s3 n, Add k v1 s = Some (tt, s1) ∧ Add k v2 s1 = Some (tt, s2) ∧
     Get k s2 = Some ((v2, true), s3) ∧
     Len s1 = Some (n, s1) ∧ Len s2 = Some (n, s2) ∧
     world s2 = world s1).
Proof.
  assert (∀ s, wf s → resident k s →
    ∃ s2 s3 n, Add k v2 s = Some (tt, s2) ∧
     entries s2 = Entry k v2 :: filter (λ kv, key kv ≠ k) (entries s) ∧
     index s2 = index s ∧ stored k s2 = Some v2 ∧
     Len s = Some (n, s) ∧ Len s2 = Some (n, s2) ∧
     world s2 = world s ∧
     Get k s2 = Some ((v2, true), s3)) as Hupd.
  { clear s. intros s Hwf Hres.
    destruct (Add_spec_update k v2 s Hwf Hres)
      as (s2 & HAdd & Hwf2 & Hes & Hw & Hidx & _).
    assert (stored k s2 = Some v2) as Hst by by eapply stored_front.
    destruct (Get_spec_hit k v2 s2 Hwf2 Hst) as (s3 & HGet & _).
    exists s2, s3, (Z.of_nat (length (entries s))).
    split; [done|]. split; [done|]. split; [done|]. split; [done|].
    split; [by apply Len_eq|]. split; [|done].
    rewrite (Len_eq _ Hwf2), Hes. simpl.
    by rewrite (filter_key_length k s Hwf Hres). }
  intros Hwf. split; [by apply Hupd|]. intros Hmx.
  destruct (Add_front k v1 s Hwf Hmx) as (s1 & es & HAdd1 & Hwf1 & Hes1 & _).
  assert (resident k s1) as Hres1.
  { eapply stored_resident. by eapply stored_front. }
  destruct (Hupd s1 Hwf1 Hres1)
    as (s2 & s3 & n & HAdd2 & _ & _ & _ & HLen1 & HLen2 & Hw & HGet).
  by exists s1, s2, s3, n.
Qed.

(** ** Touch times *)

Lemma last_touch_from_snoc now k log t :
  last_touch_from now k (log ++ [t]) =
  if decide (t = Some k) then Some (now + length log)%nat
  else last_touch_from now k log.
Proof.
  revert now. induction log as [|t0 log IH]; intros now; simpl.
  - rewrite Nat.add_0_r. by case_decide.
  - rewrite IH. case_decide; [|done]. f_equal. lia.
Qed.

Lemma last_touch_from_bound now k log i :
  last_touch_from now k log = Some i → (now ≤ i < now + length log)%nat.
Proof.
  revert now. induction log as [|t0 log IH]; intros now; simpl; [done|].
  destruct (last_touch_from (S now) k log) as [j|] eqn:Hj.
  - intros [= ->]. apply IH in Hj. lia.
  - case_decide; [|done]. intros [= ->]. lia.
Qed.

Lemma last_touch_hit k log :
  last_touch k (log ++ [Some k]) = Some (length log).
Proof.
  unfold last_touch. rewrite last_touch_from_snoc. by rewrite decide_True.
Qed.

Lemma last_touch_other k k' log :
  k' ≠ k → last_touch k' (log ++ [Some k]) = last_touch k' log.
Proof.
  intros Hne. unfold last_touch. rewrite last_touch_from_snoc.
  rewrite decide_False; [done|]. congruence.
Qed.

Lemma last_touch_miss k log : last_touch k (log ++ [None]) = last_touch k log.
Proof.
  unfold last_touch. rewrite last_touch_from_snoc. by rewrite decide_False.
Qed.

Lemma last_touch_bound k log i : last_touch k log = Some i → (i < length log)%nat.
Proof. intros Hi%last_touch_from_bound. lia. Qed.

(** ** The recency order along a history *)

Lemma recency_ordered_nil log : recency_ordered log [].
Proof. split; constructor. Qed.

Lemma StronglySorted_change {A} (R R' : relation A) (xs : list A) :
  (∀ x y, R x y → R' x y) → StronglySorted R xs → StronglySorted R' xs.
Proof.
  intros Himpl. induction 1 as [|x xs Hsorted IH Hx]; constructor; [done|].
  eapply Forall_impl; [done|]. intros y. apply Himpl.
Qed.

Lemma recency_ordered_miss log ks :
  recency_ordered log ks → recency_ordered (log ++ [None]) ks.
Proof.
  intros [Hall Hsorted]. split.
  - eapply Forall_impl; [done|]. intros k Hk. by rewrite last_touch_miss.
  - eapply StronglySorted_change; [|done].
    intros k1 k2 (t1 & t2 & H1 & H2 & Hlt). exists t1, t2.
    by rewrite !last_touch_miss.
Qed.

Lemma StronglySorted_filter_change {A} (R R' : relation A) (P : A → Prop)
    `{!∀ x, Decision (P x)} (xs : list A) :
  (∀ x y, P x → P y → R x y → R' x y) →
  StronglySorted R xs → StronglySorted R' (filter P xs).
Proof.
  intros Himpl. induction 1 as [|x xs Hsorted IH Hx]; [constructor|].
  destruct (decide (P x)) as [HP|HP].
  - rewrite filter_cons_True by done. constructor; [done|].
    apply Forall_forall. intros y [HPy Hy]%list_elem_of_filter.
    apply Himpl; [done..|]. by eapply Forall_forall in Hx.
  - by rewrite filter_cons_False.
Qed.

Lemma recency_ordered_touch log ks k :
  recency_ordered log ks →
  recency_ordered (log ++ [Some k]) (k :: filter (λ k', k' ≠ k) ks).
Proof.
  intros [Hall Hsorted]. split.
  - constructor; [by rewrite last_touch_hit|].
    apply Forall_forall. intros k' [Hne Hin]%list_elem_of_filter.
    rewrite last_touch_other by done. by eapply Forall_forall in Hall.
  - constructor.
    + eapply StronglySorted_filter_change; [|done].
      intros k1 k2 Hne1 Hne2 (t1 & t2 & H1 & H2 & Hlt). exists t1, t2.
      by rewrite !last_touch_other.
    + apply Forall_forall. intros k' [Hne Hin]%list_elem_of_filter.
      eapply Forall_forall in Hall as [t Ht]; [|done].
      exists t, (length log). rewrite last_touch_other by done.
      rewrite last_touch_hit. split; [done|]. split; [done|].
      by eapply last_touch_bound.
Qed.

Lemma recency_ordered_front log ks k0 :
  recency_ordered log (ks ++ [k0]) → recency_ordered log ks.
Proof.
  intros [[Hall _]%Forall_app Hsorted]. split; [done|].
  by eapply StronglySorted_app_1_l.
Qed.

Lemma recency_ordered_back log ks k0 k :
  recency_ordered log (ks ++ [k0]) → k ∈ ks → touched_before log k0 k.
Proof.
  intros [_ Hsorted] Hk.
  apply (StronglySorted_app_1_elem_of _ _ _ k k0 Hsorted Hk).
  apply list_elem_of_here.
Qed.

Lemma keys_filter k (es : list (@entry Key Value)) :
  key <$> filter (λ kv, key kv ≠ k) es = filter (λ k', k' ≠ k) (key <$> es).
Proof.
  induction es as [|kv es IH]; [done|]. rewrite fmap_cons.
  destruct (decide (key kv = k)) as [Heq|Hne].
  - rewrite !filter_cons_False by (intros Hx; by apply Hx). done.
  - rewrite !filter_cons_True by done. rewrite fmap_cons. by f_equal.
Qed.

Lemma tracks_touch C cb log s s' k v evicted :
  tracks C cb log s → wf s' →
  MaxEntries (self s') = MaxEntries (self s) →
  OnEvicted (self s') = OnEvicted (self s) →
  (length evicted ≤ 1)%nat →
  entries s' ++ evicted = Entry k v :: filter (λ kv, key kv ≠ k) (entries s) →
  tracks C cb (log ++ [Some k]) s'.
Proof.
  intros (Hwf & Hmx & Hcb & Hrec) Hwf' Hmx' Hcb' Hlen Hes.
  split; [done|]. split; [congruence|]. split; [congruence|].
  apply (recency_ordered_touch _ _ k) in Hrec.
  rewrite <- keys_filter in Hrec.
  change (k :: (key <$> filter (λ kv, key kv ≠ k) (entries s)))
    with (key <$> (Entry k v :: filter (λ kv, key kv ≠ k) (entries s)))
    in Hrec.
  rewrite <- Hes, fmap_app in Hrec.
  destruct evicted as [|kv0 [|kv1 evicted]]; [| |simpl in Hlen; lia].
  - by rewrite app_nil_r in Hrec.
  - by eapply recency_ordered_front.
Qed.

Lemma step_tracks C cb log s o :
  tracks C cb log s →
  ∃ t s', step o s = Some (t, s') ∧ tracks C cb (log ++ [t]) s'.
Proof.
  intros Htr. pose proof Htr as (Hwf & Hmx & Hcb & Hrec).
  destruct o as [k v|k]; simpl; unfold mbind, M_bind.
  - destruct (Add_effect k v s Hwf)
      as (s' & evicted & -> & Hwf' & Hmx' & Hcb' & Hlen & Hes & _).
    exists (Some k), s'. split; [done|]. by eapply tracks_touch.
  - destruct (decide (resident k s)) as [Hres|Hres].
    + destruct (resident_stored k s Hwf Hres) as [v Hv].
      destruct (Get_spec_hit k v s Hwf Hv)
        as (s' & -> & Hwf' & Hes & _ & _ & _ & Hmx' & Hcb').
      exists (Some k), s'. split; [done|].
      apply (tracks_touch C cb log s s' k v []); try done.
      * simpl. lia.
      * by rewrite app_nil_r.
    + pose proof Hres as Hk%not_resident. rewrite (Get_miss _ _ Hk).
      exists None, s. split; [done|].
      split; [done|]. split; [done|]. split; [done|].
      by apply recency_ordered_miss.
Qed.

Lemma run_tracks C cb ops log0 s0 :
  tracks C cb log0 s0 →
  ∃ log s, run ops s0 = Some (log, s) ∧ tracks C cb (log0 ++ log) s.
Proof.
  revert log0 s0. induction ops as [|o ops IH]; intros log0 s0 Htr.
  { exists [], s0. by rewrite app_nil_r. }
  destruct (step_tracks C cb log0 s0 o Htr) as (t & s1 & Hstep & Htr1).
  destruct (IH _ _ Htr1) as (log & s & Hrun & Htr').
  exists (t :: log), s. split.
  - simpl. unfold mbind, M_bind. by rewrite Hstep, Hrun.
  - by rewrite <- app_assoc in Htr'.
Qed.

Lemma tracks_init C cb w :
  tracks C cb [] (init (with_OnEvicted cb (New C : @Cache Key _ _ Value World)) w).
Proof.
  split; [apply linked_nil|]. split; [done|]. split; [done|].
  apply recency_ordered_nil.
Qed.

Lemma not_overflows_le mx n :
  0 < mx → ¬ overflows mx n ↔ Z.of_nat n ≤ mx.
Proof. unfold overflows. lia. Qed.

(** C1: a cache made with capacity [C > 0] runs every history of [Add] and
    [Get] calls to the end.  When an [Add] of an absent key then evicts, the
    evicted entry was resident before the call, it is not the entry being
    added, the callback runs on it, and its key was last touched before the
    last touch of every other key resident before the call (the added key
    is touched by the call itself).  With capacity 2 and distinct keys
    [a], [b], [c], the history [Add(a,v1); Add(b,v2); Get(a); Add(c,v3)]
    ends with [c] and [a] resident, in this order, and the callback run
    once, on [b]. *)
Theorem lru_evicts_least_recently_touched C cb w ops k v (a b c : Key)
    (v1 v2 v3 : Value) :
  (0 < C →
   ∃ log s,
     run ops (init (with_OnEvicted cb (New C)) w) = Some (log, s) ∧ wf s ∧
     (¬ resident k s →
      ∃ s', Add k v s = Some (tt, s') ∧
        ((entries s' = Entry k v :: entries s ∧ world s' = world s) ∨
         (∃ kv0, kv0 ∈ entries s ∧ key kv0 ≠ k ∧
            entries s' ++ [kv0] = Entry k v :: entries s ∧
            ¬ resident (key kv0) s' ∧
            world s' = fire cb (world s) kv0 ∧
            ∀ k', resident k' s → k' ≠ key kv0 →
                  touched_before log (key kv0) k')))) ∧
  (a ≠ b → a ≠ c → b ≠ c →
   ∃ s', run [OpAdd a v1; OpAdd b v2; OpGet a; OpAdd c v3]
           (init (with_OnEvicted cb (New 2)) w)
         = Some ([Some a; Some b; Some a; Some c], s') ∧
     entries s' = [Entry c v3; Entry a v1] ∧
     world s' = fire cb w (Entry b v2)).
Proof.
  split.
  - intros Hpos.
    destruct (run_tracks C cb ops [] _ (tracks_init C cb w))
      as (log & s & Hrun & Hwf & Hmx & Hcb & Hrec).
    exists log, s. split; [done|]. split; [done|]. intros Hk.
    destruct (Add_spec_new k v s Hwf Hk)
      as (s' & HAdd & Hwf' & _ & _ &
          [(_ & Hes & Hw)|(Hov & es & kv0 & Hes & Hes' & Hw & Hgone)]).
    { exists s'. split; [done|]. by left. }
    exists s'. split; [done|]. right. exists kv0.
    destruct es as [|kv1 es].
    { injection Hes as <- Hes. destruct Hov as [_ Hgt].
      rewrite Hmx, Hes in Hgt. simpl in Hgt. lia. }
    injection Hes as <- Hes.
    assert (kv0 ∈ entries s) as Hin.
    { rewrite Hes, elem_of_app. right. apply list_elem_of_here. }
    split; [done|]. split.
    { intros Heq. apply Hk. apply resident_entries; [done|].
      apply list_elem_of_fmap. eauto. }
    split; [by rewrite Hes', Hes|]. split; [done|].
    split; [by rewrite Hw, Hcb|].
    intros k' Hres Hne. apply resident_entries in Hres; [|done].
    rewrite Hes, fmap_app in Hres, Hrec. simpl in Hres, Hrec.
    apply elem_of_app in Hres as [Hres|Hres].
    + by eapply recency_ordered_back.
    + apply list_elem_of_singleton in Hres. done.
  - intros Hab Hac Hbc.
    set (s0 := init (with_OnEvicted cb (New 2)) w).
    assert (wf s0) as Hwf0 by apply linked_nil.
    (* Add(a, v1) *)
    destruct (Add_spec_new a v1 s0 Hwf0)
      as (s1 & HAdd1 & Hwf1 & Hmx1 & Hcb1 &
          [(_ & Hes1 & Hw1)|([_ Hgt] & _)]);
      [by intros [? ?]| |simpl in Hgt; lia].
    change (entries s0) with (@nil (@entry Key Value)) in Hes1.
    simpl in Hw1, Hmx1, Hcb1.
    (* Add(b, v2) *)
    destruct (Add_spec_new b v2 s1 Hwf1)
      as (s2 & HAdd2 & Hwf2 & Hmx2 & Hcb2 &
          [(_ & Hes2 & Hw2)|([_ Hgt] & _)]).
    { rewrite resident_entries, Hes1 by done. simpl.
      intros Hin%list_elem_of_singleton. done. }
    2:{ rewrite Hmx1, Hes1 in Hgt. simpl in Hgt. lia. }
    rewrite Hes1 in Hes2.
    (* Get(a) *)
    assert (stored a s2 = Some v1) as Hst.
    { apply stored_entries; [done|]. rewrite Hes2.
      apply list_elem_of_further, list_elem_of_here. }
    destruct (Get_spec_hit a v1 s2 Hwf2 Hst)
      as (s3 & HGet & Hwf3 & Hes3 & Hw3 & _ & _ & Hmx3 & Hcb3).
    rewrite Hes2 in Hes3.
    rewrite filter_cons_True in Hes3 by (simpl; congruence).
    rewrite filter_cons_False in Hes3 by (simpl; intros Hx; by apply Hx).
    rewrite filter_nil in Hes3.
    (* Add(c, v3) *)
    destruct (Add_spec_new c v3 s3 Hwf3)
      as (s4 & HAdd4 & Hwf4 & _ & _ &
          [(Hov & _)|(_ & es & kv0 & Hes & Hes4 & Hw4 & _)]).
    { rewrite resident_entries, Hes3 by done. simpl.
      intros [?|[?|?%elem_of_nil]%elem_of_cons]%elem_of_cons; congruence. }
    { destruct Hov. rewrite Hmx3, Hmx2, Hmx1, Hes3. split; simpl; lia. }
    rewrite Hes3 in Hes.
    change (Entry c v3 :: [Entry a v1; Entry b v2])
      with ([Entry c v3; Entry a v1] ++ [Entry b v2]) in Hes.
    apply app_inj_tail in Hes as [<- <-].
    exists s4. split.
    + simpl. unfold mbind, M_bind. rewrite HAdd1. simpl. rewrite HAdd2.
      simpl. rewrite HGet. simpl. by rewrite HAdd4.
    + split; [done|]. rewrite Hw4, Hw3, Hw2, Hw1, Hcb3, Hcb2, Hcb1. done.
Qed.

(** * Further properties of the package *)

(** ** One list element per key *)

Lemma keys_NoDup_aux h m l :
  NoDup l →
  (∀ e, e ∈ l → ∃ kv, h !! e = Some kv ∧ m !! key kv = Some e) →
  NoDup (key <$> entries_of h l).
Proof.
  induction l as [|e l IH]; intros Hnd Hall; [constructor|].
  apply NoDup_cons in Hnd as [Hnin Hnd].
  destruct (Hall e) as (kv & Hkv & Hkey); [apply list_elem_of_here|].
  rewrite (entries_of_cons _ _ _ _ Hkv), fmap_cons. apply NoDup_cons. split.
  - intros (kv' & Heq & Hin)%list_elem_of_fmap.
    apply list_elem_of_omap in Hin as (e' & He' & Hkv').
    destruct (Hall e') as (kv2 & Hkv2 & Hkey2);
      [by apply list_elem_of_further|].
    assert (kv2 = kv') as -> by congruence.
    rewrite <- Heq, Hkey in Hkey2. injection Hkey2 as ->. done.
  - apply IH; [done|]. intros e' He'. apply Hall.
    by apply list_elem_of_further.
Qed.

Lemma entries_keys_NoDup s : wf s → NoDup (key <$> entries s).
Proof.
  intros [[Hl Hm]|(l & m & Hl & Hm & Hlk)]%wf_cases;
    unfold entries, order; rewrite Hl; simpl.
  - constructor.
  - destruct Hlk as (Hnd & _ & Hall). by eapply keys_NoDup_aux.
Qed.

Lemma linked_size h l m : linked h l m → size m = length l.
Proof.
  intros Hlk. rewrite <- length_map_to_list.
  rewrite <- (length_fmap snd).
  apply Permutation_length. by eapply range_order_elements.
Qed.

(** X1: in a well-formed state [Len] returns the number of keys of the
    map, which is the number of entries of the recency list, and leaves the
    state as it is; the keys of the list are pairwise distinct and are
    exactly the keys of the map. *)
Theorem Len_counts_keys s :
  wf s →
  Len s = Some (Z.of_nat (size (index s)), s) ∧
  size (index s) = length (entries s) ∧
  NoDup (key <$> entries s) ∧
  (∀ k, k ∈ key <$> entries s ↔ is_Some (index s !! k)).
Proof.
  intros Hwf.
  assert (size (index s) = length (entries s)) as Hsize.
  { pose proof Hwf as [[Hl Hm]|(l & m & Hl & Hm & Hlk)]%wf_cases;
      unfold index, entries, order; rewrite Hl, Hm; simpl.
    - by rewrite map_size_empty.
    - by rewrite (linked_size _ _ _ Hlk), (linked_entries_length _ _ _ Hlk). }
  split; [by rewrite Hsize; apply Len_eq|]. split; [done|].
  split; [by apply entries_keys_NoDup|].
  intros k. symmetry. by apply resident_entries.
Qed.


(** ** Programs never panic *)

Lemma exec_safe (c : method) s :
  wf s →
  match c with
  | CClear ord => range_order (self s) ord
  | _ => True
  end →
  ∃ r s', exec c s = Some (r, s') ∧ wf s' ∧
    MaxEntries (self s') = MaxEntries (self s) ∧
    OnEvicted (self s') = OnEvicted (self s).
Proof.
  intros Hwf Hord. destruct c as [k v|k|k| | |ord]; simpl;
    unfold mbind, M_bind.
  - destruct (Add_effect k v s Hwf) as (s' & ev & -> & Hwf' & Hmx & Hcb & _).
    by exists RDone, s'.
  - destruct (decide (resident k s)) as [Hres|Hres].
    + destruct (resident_stored k s Hwf Hres) as [v Hv].
      destruct (Get_spec_hit k v s Hwf Hv)
        as (s' & -> & Hwf' & _ & _ & _ & _ & Hmx & Hcb).
      by exists (RGet v true), s'.
    + apply not_resident in Hres. rewrite (Get_miss _ _ Hres).
      by exists (RGet nil_value false), s.
  - destruct (decide (resident k s)) as [Hres|Hres].
    + destruct (resident_stored k s Hwf Hres) as [v Hv].
      destruct (Remove_spec_hit k v s Hwf Hv)
        as (s' & -> & Hwf' & _ & _ & _ & Hmx & Hcb).
      by exists RDone, s'.
    + apply not_resident in Hres. rewrite (Remove_miss _ _ Hres).
      by exists RDone, s.
  - destruct (RemoveOldest_spec s Hwf) as (s' & -> & Hwf' & Hmx & Hcb & _).
    by exists RDone, s'.
  - rewrite (Len_eq _ Hwf). by eexists _, s.
  - destruct (Clear_spec ord s Hwf Hord) as (s' & evs & -> & Hself & _).
    exists RDone, s'. split; [done|]. unfold wf. by rewrite Hself.
Qed.

(** X2: from a well-formed state, every program of [Add], [Get],
    [Remove], [RemoveOldest], [Len] and [Clear] calls runs to its end
    without a panic, returns one result per call, ends in a well-formed
    state and leaves [MaxEntries] and [OnEvicted] as they were. *)
Theorem exec_all_safe (cs : list method) s :
  wf s → orders_valid cs s →
  ∃ rs s', exec_all cs s = Some (rs, s') ∧ wf s' ∧
    length rs = length cs ∧
    MaxEntries (self s') = MaxEntries (self s) ∧
    OnEvicted (self s') = OnEvicted (self s).
Proof.
  revert s. induction cs as [|c cs IH]; intros s Hwf Hval.
  { by exists [], s. }
  destruct Hval as [Hord Hrest].
  destruct (exec_safe c s Hwf) as (r & s1 & Hexec & Hwf1 & Hmx1 & Hcb1).
  { by destruct c. }
  rewrite Hexec in Hrest.
  destruct (IH s1 Hwf1 Hrest) as (rs & s' & Hall & Hwf' & Hlen & Hmx & Hcb).
  exists (r :: rs), s'. split.
  { simpl. unfold mbind, M_bind. by rewrite Hexec, Hall. }
  split; [done|]. split; [simpl; by rewrite Hlen|].
  split; congruence.
Qed.


(** ** Bindings read off the recency list *)

Lemma stored_same k s s' :
  wf s → wf s' →
  (∀ v, Entry k v ∈ entries s' ↔ Entry k v ∈ entries s) →
  stored k s' = stored k s.
Proof.
  intros Hwf Hwf' Hiff. destruct (stored k s) as [v|] eqn:Hst.
  - apply stored_entries; [done|]. apply Hiff. by apply stored_entries.
  - destruct (stored k s') as [v'|] eqn:Hst'; [|done].
    apply stored_entries in Hst'; [|done]. apply Hiff in Hst'.
    apply stored_entries in Hst'; [|done]. congruence.
Qed.

(** X3: in a well-formed state [RemoveOldest] does nothing when no entry
    is resident; otherwise it removes the entry at the back of the recency
    list and no other, runs the callback once, on that entry, makes its
    key absent and leaves the binding of every other key as it was. *)
Theorem RemoveOldest_removes_back s :
  wf s →
  ∃ s', RemoveOldest s = Some (tt, s') ∧ wf s' ∧
    ((entries s = [] ∧ s' = s) ∨
     (∃ es kv0, entries s = es ++ [kv0] ∧ entries s' = es ∧
        world s' = fire (OnEvicted (self s)) (world s) kv0 ∧
        stored (key kv0) s = Some (value kv0) ∧
        ¬ resident (key kv0) s' ∧
        ∀ k, k ≠ key kv0 → stored k s' = stored k s)).
Proof.
  intros Hwf.
  destruct (RemoveOldest_spec s Hwf)
    as (s' & HRem & Hwf' & _ & _ & [Hempty|Hback]).
  { exists s'. split; [done|]. split; [done|]. by left. }
  destruct Hback as (es & kv0 & Hes & Hes' & Hw & Hidx).
  exists s'. split; [done|]. split; [done|]. right. exists es, kv0.
  split; [done|]. split; [done|]. split; [done|]. split.
  { apply stored_entries; [done|]. rewrite Hes, elem_of_app. right.
    destruct kv0. apply list_elem_of_here. }
  split.
  { apply not_resident. rewrite Hidx. apply lookup_delete_eq. }
  intros k Hne. apply stored_same; [done..|]. intros v.
  rewrite Hes, Hes', elem_of_app, list_elem_of_singleton. split; [tauto|].
  intros [Hin|Heq]; [done|]. subst kv0. by destruct Hne.
Qed.

(** X4: [n] calls of [RemoveOldest] in a row on a well-formed state take
    the last [n] entries off the back of the recency list (all of them
    when there are fewer) and run the callback on them from the back
    towards the front, oldest first. *)
Theorem drain_oldest_first (n : nat) s :
  wf s →
  ∃ s', drain n s = Some (tt, s') ∧ wf s' ∧
    entries s' = take (length (entries s) - n) (entries s) ∧
    world s' =
      fire_all (OnEvicted (self s)) (world s)
        (reverse (drop (length (entries s) - n) (entries s))) ∧
    ((length (entries s) ≤ n)%nat → entries s' = []).
Proof.
  revert s. induction n as [|n IH]; intros s Hwf.
  { exists s. split; [done|]. split; [done|]. rewrite Nat.sub_0_r.
    rewrite take_ge, drop_all by done. split; [done|]. split; [done|].
    intros Hle. destruct (entries s); [done|simpl in Hle; lia]. }
  destruct (RemoveOldest_spec s Hwf)
    as (s1 & HRem & Hwf1 & _ & Hcb1 & [[Hempty ->]|Hback]).
  - destruct (IH s Hwf) as (s' & Hdrain & Hwf' & Hes' & Hw' & _).
    exists s'. split.
    { simpl. unfold mbind, M_bind. by rewrite HRem. }
    split; [done|]. rewrite Hempty in *. simpl in *.
    done.
  - destruct Hback as (es & kv0 & Hes & Hes1 & Hw1 & _).
    destruct (IH s1 Hwf1) as (s' & Hdrain & Hwf' & Hes' & Hw' & Hall).
    exists s'. split.
    { simpl. unfold mbind, M_bind. by rewrite HRem. }
    split; [done|]. rewrite Hes1 in Hes', Hw', Hall.
    rewrite Hcb1, Hw1 in Hw'. rewrite Hes, length_app.
    simpl length.
    replace (length es + 1 - S n)%nat with (length es - n)%nat by lia.
    rewrite take_app_le, drop_app_le by lia.
    rewrite reverse_snoc. split; [done|]. split; [done|].
    intros Hle. apply Hall. lia.
Qed.


(** ** Round trips and frames *)

Lemma front_key_fresh k v es s :
  wf s → entries s = Entry k v :: es →
  filter (λ kv, key kv ≠ k) es = es.
Proof.
  intros Hwf Hes. pose proof (entries_keys_NoDup s Hwf) as Hnd.
  rewrite Hes, fmap_cons in Hnd. apply NoDup_cons in Hnd as [Hnin _].
  apply filter_keep, Forall_forall. intros kv Hkv Heq. apply Hnin.
  apply list_elem_of_fmap. eauto.
Qed.

(** X5: on a well-formed cache whose [MaxEntries] is not negative, [Get]
    of a key right after its [Add] returns the added value and true, and
    changes neither the recency list nor the world. *)
Theorem Add_Get_round_trip k v s :
  wf s → 0 ≤ MaxEntries (self s) →
  ∃ s1 s2, Add k v s = Some (tt, s1) ∧
    Get k s1 = Some ((v, true), s2) ∧
    entries s2 = entries s1 ∧ world s2 = world s1.
Proof.
  intros Hwf Hmx.
  destruct (Add_front k v s Hwf Hmx) as (s1 & es & HAdd & Hwf1 & Hes1 & _).
  assert (stored k s1 = Some v) as Hst by by eapply stored_front.
  destruct (Get_spec_hit k v s1 Hwf1 Hst) as (s2 & HGet & _ & Hes2 & Hw2 & _).
  exists s1, s2. split; [done|]. split; [done|]. split; [|done].
  rewrite Hes2, Hes1.
  rewrite filter_cons_False by (intros Hx; by apply Hx).
  by rewrite (front_key_fresh k v es s1).
Qed.

(** X6: [Add] on a well-formed state evicts at most one entry; a key
    other than the added one is either the evicted key, and then absent
    afterwards, or keeps exactly the binding it had, and no key other than
    the added one becomes resident. *)
Theorem Add_frame k v s :
  wf s →
  ∃ s' evicted, Add k v s = Some (tt, s') ∧ (length evicted ≤ 1)%nat ∧
    (∀ kv, kv ∈ evicted → ¬ resident (key kv) s') ∧
    (∀ k', k' ≠ k → k' ∉ key <$> evicted → stored k' s' = stored k' s).
Proof.
  intros Hwf.
  destruct (Add_effect k v s Hwf)
    as (s' & evicted & HAdd & Hwf' & _ & _ & Hlen & Hes & _).
  exists s', evicted. split; [done|]. split; [done|].
  assert (NoDup (key <$> (entries s' ++ evicted))) as Hnd.
  { rewrite Hes, fmap_cons, keys_filter. simpl. apply NoDup_cons. split.
    - intros [Hne _]%list_elem_of_filter. by apply Hne.
    - apply NoDup_filter. by apply entries_keys_NoDup. }
  rewrite fmap_app in Hnd. apply NoDup_app in Hnd as (_ & Hdisj & _).
  split.
  - intros kv Hkv Hres. apply resident_entries in Hres; [|done].
    apply (Hdisj _ Hres). apply list_elem_of_fmap. eauto.
  - intros k' Hne Hnev. apply stored_same; [done..|]. intros v'. split.
    + intros Hin.
      assert (Entry k' v' ∈ entries s' ++ evicted) as Hin'
        by (apply elem_of_app; by left).
      rewrite Hes in Hin'. apply elem_of_cons in Hin' as [Heq|Hin'].
      * injection Heq as -> _. done.
      * by apply list_elem_of_filter in Hin' as [_ ?].
    + intros Hin.
      assert (Entry k' v' ∈ entries s' ++ evicted) as Hin'.
      { rewrite Hes. apply list_elem_of_further, list_elem_of_filter.
        by split. }
      apply elem_of_app in Hin' as [Hin'|Hin']; [done|].
      destruct Hnev. apply list_elem_of_fmap. by exists (Entry k' v').
Qed.

(** X7: [Remove] on a well-formed state leaves the binding of every
    other key as it was; it shortens the recency list by one when the key
    was resident and keeps its length otherwise. *)
Theorem Remove_frame k s :
  wf s →
  ∃ s', Remove k s = Some (tt, s') ∧
    (∀ k', k' ≠ k → stored k' s' = stored k' s) ∧
    (resident k s → S (length (entries s')) = length (entries s)) ∧
    (¬ resident k s → length (entries s') = length (entries s)).
Proof.
  intros Hwf. destruct (decide (resident k s)) as [Hres|Hres].
  - destruct (resident_stored k s Hwf Hres) as [v Hv].
    destruct (Remove_spec_hit k v s Hwf Hv) as (s' & HRem & Hwf' & Hes & _).
    exists s'. split; [done|]. split; [|split; [|done]].
    + intros k' Hne. apply stored_same; [done..|]. intros v'.
      rewrite Hes, list_elem_of_filter. simpl. tauto.
    + intros _. rewrite Hes. by apply filter_key_length.
  - pose proof Hres as Hk%not_resident. exists s.
    by rewrite (Remove_miss _ _ Hk).
Qed.

Lemma touch_Permutation k v (es : list (@entry Key Value)) :
  NoDup (key <$> es) → Entry k v ∈ es →
  Entry k v :: filter (λ kv, key kv ≠ k) es ≡ₚ es.
Proof.
  induction es as [|x es IH]; intros Hnd Hin; [by apply elem_of_nil in Hin|].
  rewrite fmap_cons in Hnd. apply NoDup_cons in Hnd as [Hx Hnd].
  destruct (decide (key x = k)) as [Heq|Hne].
  - rewrite filter_cons_False by (intros Hx'; by apply Hx').
    apply elem_of_cons in Hin as [<-|Hin].
    + simpl in Hx. rewrite filter_keep; [done|].
      apply Forall_forall. intros kv Hkv Heq'. apply Hx.
      apply list_elem_of_fmap. eauto.
    + destruct Hx. rewrite Heq. apply list_elem_of_fmap.
      by exists (Entry k v).
  - rewrite filter_cons_True by done.
    apply elem_of_cons in Hin as [Hxe|Hin]; [subst x; by destruct Hne|].
    rewrite Permutation_swap. f_equiv. by apply IH.
Qed.

(** X8: [Get] on a well-formed state returns the value bound to the key
    and true when there is one, the zero value and false otherwise; it
    only reorders the recency list, and leaves every binding and the world
    as they were. *)
Theorem Get_keeps_bindings k s :
  wf s →
  ∃ s', Get k s =
        Some (match stored k s with
              | Some v => (v, true)
              | None => (nil_value, false)
              end, s') ∧
    entries s' ≡ₚ entries s ∧
    (∀ k', stored k' s' = stored k' s) ∧
    world s' = world s.
Proof.
  intros Hwf. destruct (stored k s) as [v|] eqn:Hst.
  - destruct (Get_spec_hit k v s Hwf Hst) as (s' & HGet & Hwf' & Hes & Hw & _).
    assert (entries s' ≡ₚ entries s) as Hperm.
    { rewrite Hes. apply touch_Permutation; [by apply entries_keys_NoDup|].
      by apply stored_entries. }
    exists s'. split; [done|]. split; [done|]. split; [|done].
    intros k'. apply stored_same; [done..|]. intros v'. by rewrite Hperm.
  - assert (index s !! k = None) as Hk.
    { apply not_resident. intros Hres.
      destruct (resident_stored k s Hwf Hres) as [v Hv]. congruence. }
    exists s. by rewrite (Get_miss _ _ Hk).
Qed.

(** X9: the length after an [Add] on a well-formed state: unchanged when
    the key was resident, unchanged again when the key was absent and the
    capacity test [MaxEntries != 0 && Len() > MaxEntries] succeeds on the
    grown list, one more otherwise.  So an [Add] never shortens the list,
    also when [MaxEntries] was lowered below the length. *)
Theorem Add_Len k v s :
  wf s →
  ∃ s' n, Add k v s = Some (tt, s') ∧ Len s = Some (n, s) ∧
    Len s' =
    Some (if decide (resident k s ∨
                     (MaxEntries (self s) ≠ 0 ∧ n + 1 > MaxEntries (self s)))
          then n else n + 1, s').
Proof.
  intros Hwf. destruct (decide (resident k s)) as [Hres|Hres].
  - destruct (Add_spec_update k v s Hwf Hres) as (s' & HAdd & Hwf' & Hes & _).
    exists s', (Z.of_nat (length (entries s))).
    split; [done|]. split; [by apply Len_eq|].
    rewrite decide_True by by left.
    rewrite (Len_eq _ Hwf'), Hes. simpl length.
    by rewrite (filter_key_length k s Hwf Hres).
  - destruct (Add_spec_new k v s Hwf Hres)
      as (s' & HAdd & Hwf' & _ & _ &
          [(Hov & Hes & _)|(Hov & es & kv0 & Hes & Hes' & _)]);
      exists s', (Z.of_nat (length (entries s)));
      (split; [done|]); (split; [by apply Len_eq|]);
      rewrite (Len_eq _ Hwf'); unfold overflows in Hov.
    + rewrite decide_False by (intros [?|[? ?]]; [done|]; apply Hov; lia).
      rewrite Hes. simpl length. do 2 f_equal. lia.
    + rewrite decide_True by (right; lia).
      apply (f_equal length) in Hes. rewrite length_app in Hes.
      simpl in Hes. rewrite Hes'. do 2 f_equal. lia.
Qed.

(** X10: on a well-formed state, [Add] of an absent key that does not
    evict, followed by [Remove] of that key, gives back the recency list
    there was, and runs the callback once, on the added entry. *)
Theorem Add_Remove_round_trip k v s :
  wf s → ¬ resident k s →
  ¬ overflows (MaxEntries (self s)) (S (length (entries s))) →
  ∃ s1 s2, Add k v s = Some (tt, s1) ∧ Remove k s1 = Some (tt, s2) ∧
    entries s2 = entries s ∧
    world s2 = fire (OnEvicted (self s)) (world s) (Entry k v).
Proof.
  intros Hwf Hres Hov.
  destruct (Add_spec_new k v s Hwf Hres)
    as (s1 & HAdd & Hwf1 & _ & Hcb1 & [(_ & Hes1 & Hw1)|(Hov' & _)]);
    [|done].
  assert (stored k s1 = Some v) as Hst by by eapply stored_front.
  destruct (Remove_spec_hit k v s1 Hwf1 Hst) as (s2 & HRem & _ & Hes2 & Hw2 & _).
  exists s1, s2. split; [done|]. split; [done|]. split.
  - rewrite Hes2, Hes1.
    rewrite filter_cons_False by (intros Hx; by apply Hx).
    by rewrite (front_key_fresh k v (entries s) s1).
  - by rewrite Hw2, Hcb1, Hw1.
Qed.


(** ** The zero [Cache] and [New] *)

Lemma evict_each_same_but_nil ord mx cb h w :
  match evict_each ord (mkState (zero_Cache mx cb) h w),
        evict_each ord (St mx cb [] ∅ h w) with
  | Some (_, s1), Some (_, s2) =>
      ∃ w', s1 = mkState (zero_Cache mx cb) h w' ∧ s2 = St mx cb [] ∅ h w'
  | None, None => True
  | _, _ => False
  end.
Proof.
  revert w. induction ord as [|[k e] ord IH]; intros w; simpl.
  { by exists w. }
  unfold deref, get_self, call, panic. unfold mbind, M_bind. simpl.
  destruct (h !! e) as [kv|]; [|done]. simpl.
  destruct cb as [f|]; [|done]. simpl. apply IH.
Qed.

Lemma exec_same_but_nil (c : method) s1 s2 :
  same_but_nil s1 s2 →
  match exec c s1, exec c s2 with
  | Some (r1, s1'), Some (r2, s2') => r1 = r2 ∧ same_but_nil s1' s2'
  | None, None => True
  | _, _ => False
  end.
Proof.
  intros [->|(mx & cb & h & w & -> & ->)].
  { destruct (exec c s2) as [[r s']|]; [|done]. split; [done|]. by left. }
  assert (same_but_nil (mkState (zero_Cache mx cb) h w) (St mx cb [] ∅ h w))
    as Hrel by (right; by exists mx, cb, h, w).
  unfold zero_Cache in *.
  destruct c as [k v|k|k| | |ord]; simpl; unfold mbind, M_bind.
  - rewrite Add_nil.
    destruct (Add k v (St mx cb [] ∅ h w)) as [[[] s']|]; [|done].
    split; [done|]. by left.
  - rewrite !Get_miss by (unfold index; simpl; apply lookup_empty). done.
  - rewrite !Remove_miss by (unfold index; simpl; apply lookup_empty). done.
  - by unfold_M.
  - by unfold_M.
  - unfold Clear, get_self, set_ll, set_cache, put_self.
    unfold mbind, M_bind. simpl. destruct cb as [f|]; simpl.
    + pose proof (evict_each_same_but_nil ord mx (Some f) h w) as Hev.
      unfold zero_Cache in Hev.
      destruct (evict_each ord
                  (mkState (mkCache mx (Some f) None None) h w))
        as [[[] s1]|];
        destruct (evict_each ord (St mx (Some f) [] ∅ h w)) as [[[] s2]|];
        try done.
      destruct Hev as (w' & -> & ->). simpl. split; [done|]. by left.
    + split; [done|]. by left.
Qed.

(** X11: a [Cache] whose list and map are nil, as a zero [Cache] literal
    with its exported fields set has them, answers every program of
    calls as the cache [New] makes with the same fields: both panic or
    neither does, the results are the same call by call, and so are the
    world of the callback, the stored elements and the recency list at the
    end. *)
Theorem zero_value_like_New mx cb h w (cs : list method) :
  match exec_all cs (mkState (zero_Cache mx cb) h w),
        exec_all cs (mkState (with_OnEvicted cb (New mx)) h w) with
  | Some (rs1, s1), Some (rs2, s2) =>
      rs1 = rs2 ∧ world s1 = world s2 ∧ heap s1 = heap s2 ∧
      entries s1 = entries s2
  | None, None => True
  | _, _ => False
  end.
Proof.
  assert (∀ s1 s2, same_but_nil s1 s2 →
    match exec_all cs s1, exec_all cs s2 with
    | Some (rs1, s1'), Some (rs2, s2') => rs1 = rs2 ∧ same_but_nil s1' s2'
    | None, None => True
    | _, _ => False
    end) as Hgen.
  { induction cs as [|c cs IH]; intros s1 s2 Hrel; [done|].
    simpl. unfold mbind, M_bind.
    pose proof (exec_same_but_nil c s1 s2 Hrel) as Hc.
    destruct (exec c s1) as [[r1 s1']|], (exec c s2) as [[r2 s2']|];
      try done.
    destruct Hc as [-> Hrel']. specialize (IH s1' s2' Hrel').
    destruct (exec_all cs s1') as [[rs1 s1'']|],
             (exec_all cs s2') as [[rs2 s2'']|]; try done.
    destruct IH as [-> Hrel'']. done. }
  specialize (Hgen (mkState (zero_Cache mx cb) h w)
                (mkState (with_OnEvicted cb (New mx)) h w)).
  destruct (exec_all cs (mkState (zero_Cache mx cb) h w)) as [[rs1 s1]|],
           (exec_all cs (mkState (with_OnEvicted cb (New mx)) h w))
             as [[rs2 s2]|];
    try (apply Hgen; right; by exists mx, cb, h, w).
  destruct Hgen as [-> [->|(mx' & cb' & h' & w' & -> & ->)]];
    [right; by exists mx, cb, h, w|done|done].
Qed.


(** ** The capacity along programs *)

Lemma exec_length (c : method) s :
  wf s →
  match c with
  | CClear ord => range_order (self s) ord
  | _ => True
  end →
  ∃ r s', exec c s = Some (r, s') ∧ wf s' ∧
    MaxEntries (self s') = MaxEntries (self s) ∧
    (r = RLen (Z.of_nat (length (entries s))) ∨ ∀ n, r ≠ RLen n) ∧
    match c with
    | CAdd k v =>
        ∀ C, 0 < C → MaxEntries (self s) = C →
             Z.of_nat (length (entries s)) ≤ C →
             Z.of_nat (length (entries s')) ≤ C
    | _ => (length (entries s') ≤ length (entries s))%nat
    end.
Proof.
  intros Hwf Hord. destruct c as [k v|k|k| | |ord]; simpl;
    unfold mbind, M_bind.
  - destruct (Add_effect k v s Hwf) as (s' & ev & HAdd & Hwf' & Hmx & _).
    rewrite HAdd. exists RDone, s'. split; [done|]. split; [done|].
    split; [done|]. split; [by right|]. intros C Hpos HC Hlen. subst C.
    by eapply Add_capacity.
  - destruct (decide (resident k s)) as [Hres|Hres].
    + destruct (resident_stored k s Hwf Hres) as [v Hv].
      destruct (Get_spec_hit k v s Hwf Hv)
        as (s' & -> & Hwf' & Hes & _ & _ & _ & Hmx & _).
      exists (RGet v true), s'. split; [done|]. split; [done|].
      split; [done|]. split; [by right|]. rewrite Hes. simpl.
      by rewrite (filter_key_length k s Hwf Hres).
    + apply not_resident in Hres. rewrite (Get_miss _ _ Hres).
      exists (RGet nil_value false), s. split; [done|]. split; [done|].
      split; [done|]. split; [by right|]. done.
  - destruct (decide (resident k s)) as [Hres|Hres].
    + destruct (resident_stored k s Hwf Hres) as [v Hv].
      destruct (Remove_spec_hit k v s Hwf Hv)
        as (s' & -> & Hwf' & Hes & _ & _ & Hmx & _).
      exists RDone, s'. split; [done|]. split; [done|].
      split; [done|]. split; [by right|]. rewrite Hes. apply length_filter.
    + apply not_resident in Hres. rewrite (Remove_miss _ _ Hres).
      exists RDone, s. split; [done|]. split; [done|].
      split; [done|]. split; [by right|]. done.
  - destruct (RemoveOldest_spec s Hwf)
      as (s' & -> & Hwf' & Hmx & _ & Hcases).
    exists RDone, s'. split; [done|]. split; [done|].
    split; [done|]. split; [by right|].
    destruct Hcases as [[_ ->]|(es & kv0 & -> & -> & _)]; [done|].
    rewrite length_app. lia.
  - rewrite (Len_eq _ Hwf). eexists _, s. split; [done|]. split; [done|].
    split; [done|]. split; [by left|]. done.
  - destruct (Clear_spec ord s Hwf Hord) as (s' & evs & -> & Hself & _).
    exists RDone, s'. split; [done|].
    split; [unfold wf; by rewrite Hself|]. split; [by rewrite Hself|].
    split; [by right|]. unfold entries at 1, order. rewrite Hself. simpl. lia.
Qed.

(** X12: in a well-formed state with a positive [MaxEntries] and at most
    that many entries, as [New] gives, every program of calls runs to its
    end with at most [MaxEntries] entries, and every [Len] call of the
    program returns a number between 0 and [MaxEntries]. *)
Theorem capacity_kept_by_programs (cs : list method) s :
  wf s → 0 < MaxEntries (self s) →
  Z.of_nat (length (entries s)) ≤ MaxEntries (self s) →
  orders_valid cs s →
  ∃ rs s', exec_all cs s = Some (rs, s') ∧
    Z.of_nat (length (entries s')) ≤ MaxEntries (self s) ∧
    Forall (λ r, ∀ n, r = RLen n → 0 ≤ n ≤ MaxEntries (self s)) rs.
Proof.
  revert s. induction cs as [|c cs IH]; intros s Hwf Hpos Hlen Hval.
  { exists [], s. split; [done|]. split; [done|]. constructor. }
  destruct Hval as [Hord Hrest].
  destruct (exec_length c s Hwf) as (r & s1 & Hexec & Hwf1 & Hmx1 & Hr & Hc).
  { by destruct c. }
  rewrite Hexec in Hrest.
  assert (Z.of_nat (length (entries s1)) ≤ MaxEntries (self s)) as Hlen1.
  { destruct c; try lia. by apply Hc. }
  rewrite <- Hmx1 in Hlen1, Hpos.
  destruct (IH s1 Hwf1 Hpos Hlen1 Hrest) as (rs & s' & Hall & Hlen' & Hrs).
  rewrite Hmx1 in Hlen', Hrs.
  exists (r :: rs), s'. split.
  { simpl. unfold mbind, M_bind. by rewrite Hexec, Hall. }
  split; [done|]. constructor; [|done].
  intros n Hn. destruct Hr as [Hr|Hr]; [|by destruct (Hr n)].
  rewrite Hr in Hn. injection Hn as <-. lia.
Qed.


(** ** The recency order along programs *)

Lemma recency_ordered_filter log ks (P : Key → Prop)
    `{!∀ k, Decision (P k)} :
  recency_ordered log ks → recency_ordered log (filter P ks).
Proof.
  intros [Hall Hsorted]. split.
  - apply Forall_forall. intros k [_ Hin]%list_elem_of_filter.
    by eapply Forall_forall in Hall.
  - by eapply StronglySorted_filter_change; [|done].
Qed.

Lemma exec_tracks C cb log (c : method) s :
  tracks C cb log s →
  match c with
  | CClear ord => range_order (self s) ord
  | _ => True
  end →
  ∃ r s', exec c s = Some (r, s') ∧ tracks C cb (log ++ [touched c r]) s'.
Proof.
  intros Htr Hord. pose proof Htr as (Hwf & Hmx & Hcb & Hrec).
  destruct c as [k v|k|k| | |ord]; simpl; unfold mbind, M_bind.
  - destruct (Add_effect k v s Hwf)
      as (s' & evicted & -> & Hwf' & Hmx' & Hcb' & Hlen & Hes & _).
    exists RDone, s'. split; [done|]. by eapply tracks_touch.
  - destruct (decide (resident k s)) as [Hres|Hres].
    + destruct (resident_stored k s Hwf Hres) as [v Hv].
      destruct (Get_spec_hit k v s Hwf Hv)
        as (s' & -> & Hwf' & Hes & _ & _ & _ & Hmx' & Hcb').
      exists (RGet v true), s'. split; [done|].
      apply (tracks_touch C cb log s s' k v []); try done.
      * simpl. lia.
      * by rewrite app_nil_r.
    + pose proof Hres as Hk%not_resident. rewrite (Get_miss _ _ Hk).
      exists (RGet nil_value false), s. split; [done|].
      split; [done|]. split; [done|]. split; [done|].
      by apply recency_ordered_miss.
  - destruct (decide (resident k s)) as [Hres|Hres].
    + destruct (resident_stored k s Hwf Hres) as [v Hv].
      destruct (Remove_spec_hit k v s Hwf Hv)
        as (s' & -> & Hwf' & Hes & _ & _ & Hmx' & Hcb').
      exists RDone, s'. split; [done|].
      split; [done|]. split; [congruence|]. split; [congruence|].
      rewrite Hes, keys_filter.
      by apply recency_ordered_filter, recency_ordered_miss.
    + pose proof Hres as Hk%not_resident. rewrite (Remove_miss _ _ Hk).
      exists RDone, s. split; [done|].
      split; [done|]. split; [done|]. split; [done|].
      by apply recency_ordered_miss.
  - destruct (RemoveOldest_spec s Hwf)
      as (s' & -> & Hwf' & Hmx' & Hcb' & Hcases).
    exists RDone, s'. split; [done|].
    split; [done|]. split; [congruence|]. split; [congruence|].
    apply recency_ordered_miss.
    destruct Hcases as [[_ ->]|(es & kv0 & Hes & -> & _)]; [done|].
    rewrite Hes, fmap_app in Hrec. by eapply recency_ordered_front.
  - rewrite (Len_eq _ Hwf). eexists _, s. split; [done|].
    split; [done|]. split; [done|]. split; [done|].
    by apply recency_ordered_miss.
  - destruct (Clear_spec ord s Hwf Hord) as (s' & evs & -> & Hself & _).
    exists RDone, s'. split; [done|].
    split; [unfold wf; by rewrite Hself|].
    split; [by rewrite Hself|]. split; [by rewrite Hself|].
    unfold entries, order. rewrite Hself. apply recency_ordered_nil.
Qed.

Lemma exec_all_tracks C cb (cs : list method) log0 s0 :
  tracks C cb log0 s0 → orders_valid cs s0 →
  ∃ rs s, exec_all cs s0 = Some (rs, s) ∧
    tracks C cb (log0 ++ touch_log cs rs) s.
Proof.
  revert log0 s0. induction cs as [|c cs IH]; intros log0 s0 Htr Hval.
  { exists [], s0. split; [done|]. unfold touch_log. simpl.
    by rewrite app_nil_r. }
  destruct Hval as [Hord Hrest].
  destruct (exec_tracks C cb log0 c s0 Htr) as (r & s1 & Hexec & Htr1).
  { by destruct c. }
  rewrite Hexec in Hrest.
  destruct (IH _ _ Htr1 Hrest) as (rs & s & Hall & Htr').
  exists (r :: rs), s. split.
  - simpl. unfold mbind, M_bind. by rewrite Hexec, Hall.
  - unfold touch_log in *. simpl. by rewrite <- app_assoc in Htr'.
Qed.

(** X13: after any program of calls on a cache from [New], with any
    capacity and callback, the keys of the recency list are in the order
    of their last touches by [Add] or a [Get] that hit, most recent first.
    So a [RemoveOldest] called then removes the resident entry whose key
    was touched least recently. *)
Theorem RemoveOldest_after_program C cb w (cs : list method) :
  orders_valid cs (init (with_OnEvicted cb (New C)) w) →
  ∃ rs s,
    exec_all cs (init (with_OnEvicted cb (New C)) w) = Some (rs, s) ∧
    recency_ordered (touch_log cs rs) (key <$> entries s) ∧
    ∀ es kv0, entries s = es ++ [kv0] →
      ∃ s', RemoveOldest s = Some (tt, s') ∧ entries s' = es ∧
        world s' = fire cb (world s) kv0 ∧
        ∀ k, resident k s → k ≠ key kv0 →
             touched_before (touch_log cs rs) (key kv0) k.
Proof.
  intros Hval.
  destruct (exec_all_tracks C cb cs [] _ (tracks_init C cb w) Hval)
    as (rs & s & Hall & Hwf & Hmx & Hcb & Hrec).
  simpl in Hrec. exists rs, s. split; [done|]. split; [done|].
  intros es kv0 Hes.
  destruct (RemoveOldest_spec s Hwf)
    as (s' & HRem & _ & _ & _ & [[Hnil _]|Hback]).
  { rewrite Hes in Hnil. by destruct es. }
  destruct Hback as (es1 & kv1 & Hes1 & Hes' & Hw & _).
  rewrite Hes in Hes1. apply app_inj_tail in Hes1 as [<- <-].
  exists s'. split; [done|]. split; [done|]. split; [by rewrite Hw, Hcb|].
  intros k Hres Hne. apply resident_entries in Hres; [|done].
  rewrite Hes, fmap_app in Hres, Hrec. simpl in Hres, Hrec.
  apply elem_of_app in Hres as [Hres|Hres].
  - by eapply recency_ordered_back.
  - apply list_elem_of_singleton in Hres. done.
Qed.


End lru_theory.

(** * The concrete instance *)

Lemma fresh_wf mx : wf (fresh mx).
Proof. apply linked_nil. Qed.

Lemma fresh_ab_eq :
  add_all [("a"%string, Int 1); ("b"%string, Int 2)] (fresh 2)
  = Some (tt, fresh_ab).
Proof. vm_compute. reflexivity. Qed.

Lemma fresh_ab_wf : wf fresh_ab.
Proof.
  destruct (add_all_spec [("a"%string, Int 1); ("b"%string, Int 2)]
              (fresh 2) (fresh_wf 2)) as (s & Hall & Hwf & _).
  rewrite fresh_ab_eq in Hall. by injection Hall as <-.
Qed.

Lemma fresh_ab_entries :
  entries fresh_ab = [Entry "b"%string (Int 2); Entry "a"%string (Int 1)].
Proof. vm_compute. reflexivity. Qed.

Lemma fresh_ab_resident_a : resident "a"%string fresh_ab.
Proof. exists 0%nat. vm_compute. reflexivity. Qed.

Lemma fresh_ab_absent_z : ¬ resident "z"%string fresh_ab.
Proof. apply not_resident. vm_compute. reflexivity. Qed.

Lemma fresh_absent mx (k : string) : ¬ resident k (fresh mx).
Proof. apply not_resident. unfold index. simpl. apply lookup_empty. Qed.

Local Open Scope string_scope.
Local Open Scope list_scope.
Local Open Scope Z_scope.

(** [Get_hit_and_miss] on [fresh_ab]: a hit on ["a"], a miss on ["z"]. *)
Lemma Get_hit_and_miss_witness :
  wf fresh_ab ∧ resident "a" fresh_ab ∧ ¬ resident "z" fresh_ab ∧
  (∃ v s', stored "a" fresh_ab = Some v ∧
     Get "a" fresh_ab = Some ((v, true), s') ∧ wf s' ∧
     entries s' = Entry "a" v :: filter (λ kv, key kv ≠ "a") (entries fresh_ab) ∧
     index s' = index fresh_ab ∧ heap s' = heap fresh_ab ∧
     world s' = world fresh_ab ∧
     MaxEntries (self s') = MaxEntries (self fresh_ab) ∧
     OnEvicted (self s') = OnEvicted (self fresh_ab)) ∧
  Get "z" fresh_ab = Some ((nil_value, false), fresh_ab).
Proof.
  split; [exact fresh_ab_wf|]. split; [exact fresh_ab_resident_a|].
  split; [exact fresh_ab_absent_z|]. split.
  - exact (proj1 (Get_hit_and_miss "a" fresh_ab fresh_ab_wf)
             fresh_ab_resident_a).
  - exact (proj2 (Get_hit_and_miss "z" fresh_ab fresh_ab_wf)
             fresh_ab_absent_z).
Defined.

(** [Remove_idempotent] on [fresh_ab] and the resident key ["a"]. *)
Lemma Remove_idempotent_witness :
  wf fresh_ab ∧
  ∃ s', Remove "a" fresh_ab = Some (tt, s') ∧ wf s' ∧ ¬ resident "a" s' ∧
    (∀ v, stored "a" fresh_ab = Some v →
       entries s' = filter (λ kv, key kv ≠ "a") (entries fresh_ab) ∧
       world s' = fire (OnEvicted (self fresh_ab)) (world fresh_ab)
                    (Entry "a" v)) ∧
    (¬ resident "a" fresh_ab → s' = fresh_ab) ∧
    Remove "a" s' = Some (tt, s').
Proof.
  split; [exact fresh_ab_wf|].
  exact (Remove_idempotent "a" fresh_ab fresh_ab_wf).
Defined.

(** [Clear_complete] on [fresh_ab]. *)
Lemma Clear_complete_witness :
  wf fresh_ab ∧
  range_order (self fresh_ab) (map_to_list (index fresh_ab)) ∧
  ∃ s' evs, Clear (map_to_list (index fresh_ab)) fresh_ab = Some (tt, s') ∧
    Len s' = Some (0, s') ∧
    (∀ k, Get k s' = Some ((nil_value, false), s')) ∧
    evs ≡ₚ entries fresh_ab ∧
    world s' = fire_all (OnEvicted (self fresh_ab)) (world fresh_ab) evs.
Proof.
  assert (range_order (self fresh_ab) (map_to_list (index fresh_ab))) as Hord.
  { unfold range_order. reflexivity. }
  split; [exact fresh_ab_wf|]. split; [exact Hord|].
  exact (proj2 (Clear_complete fresh_ab fresh_ab_wf) _ Hord).
Defined.

(** [capacity_invariant] at capacity 2 and three [Add]s. *)
Lemma capacity_invariant_witness :
  0 < 2 ∧
  ∃ s n,
    add_all [("a", Int 1); ("b", Int 2); ("c", Int 3)]
      (init (with_OnEvicted (Some log_evicted) (New 2)) [])
    = Some (tt, s) ∧
    wf s ∧ Len s = Some (n, s) ∧ n ≤ 2 ∧
    ∀ k v, ∃ s' evicted, Add k v s = Some (tt, s') ∧
      (length evicted ≤ 1)%nat ∧
      entries s' ++ evicted =
        Entry k v :: filter (λ kv, key kv ≠ k) (entries s) ∧
      world s' = fire_all (Some log_evicted) (world s) evicted.
Proof.
  assert (0 < 2) as Hpos by lia.
  split; [exact Hpos|].
  exact (capacity_invariant 2 (Some log_evicted) []
           [("a", Int 1); ("b", Int 2); ("c", Int 3)] Hpos).
Defined.

(** The update sequence on a cache of negative capacity: every [Add]
    evicts what it added, and the final [Get] misses. *)
Lemma Add_update_negative_capacity :
  wf (fresh (-1)) ∧
  fst <$> (Add "k" (Int 1);; Add "k" (Int 2);; Get "k") (fresh (-1))
  = Some (Nil, false) ∧
  ¬ ∃ s3, (Add "k" (Int 1);; Add "k" (Int 2);; Get "k") (fresh (-1))
          = Some ((Int 2, true), s3).
Proof.
  split; [apply fresh_wf|].
  assert (fst <$> (Add "k" (Int 1);; Add "k" (Int 2);; Get "k") (fresh (-1))
          = Some (Nil, false)) as Hrun.
  { vm_compute. reflexivity. }
  split; [exact Hrun|]. intros [s3 Hs3]. rewrite Hs3 in Hrun. discriminate.
Qed.

(** [Add_update_semantics] on [fresh_ab], whose capacity is 2, and the
    resident key ["a"]. *)
Lemma Add_update_semantics_witness :
  wf fresh_ab ∧ resident "a" fresh_ab ∧ 0 ≤ MaxEntries (self fresh_ab) ∧
  (∃ s2 s3 n, Add "a" (Int 7) fresh_ab = Some (tt, s2) ∧
     entries s2 =
       Entry "a" (Int 7) :: filter (λ kv, key kv ≠ "a") (entries fresh_ab) ∧
     index s2 = index fresh_ab ∧ stored "a" s2 = Some (Int 7) ∧
     Len fresh_ab = Some (n, fresh_ab) ∧ Len s2 = Some (n, s2) ∧
     world s2 = world fresh_ab ∧
     Get "a" s2 = Some ((Int 7, true), s3)) ∧
  (∃ s1 s2 s3 n, Add "a" (Int 5) fresh_ab = Some (tt, s1) ∧
     Add "a" (Int 7) s1 = Some (tt, s2) ∧
     Get "a" s2 = Some ((Int 7, true), s3) ∧
     Len s1 = Some (n, s1) ∧ Len s2 = Some (n, s2) ∧
     world s2 = world s1).
Proof.
  assert (0 ≤ MaxEntries (self fresh_ab)) as Hmx by (vm_compute; discriminate).
  split; [exact fresh_ab_wf|]. split; [exact fresh_ab_resident_a|].
  split; [exact Hmx|]. split.
  - exact (proj1 (Add_update_semantics "a" (Int 5) (Int 7) fresh_ab
                    fresh_ab_wf) fresh_ab_resident_a).
  - exact (proj2 (Add_update_semantics "a" (Int 5) (Int 7) fresh_ab
                    fresh_ab_wf) Hmx).
Defined.

(** [unbounded_never_evicts] on a fresh cache of capacity 0 and three
    distinct keys. *)
Lemma unbounded_never_evicts_witness :
  wf (fresh 0) ∧ MaxEntries (self (fresh 0)) = 0 ∧
  NoDup [("a", Int 1); ("b", Int 2); ("c", Int 3)].*1 ∧
  (∀ k, k ∈ [("a", Int 1); ("b", Int 2); ("c", Int 3)].*1 →
        ¬ resident k (fresh 0)) ∧
  (∀ n, ¬ overflows (MaxEntries (self (fresh 0))) n) ∧
  ∃ s', add_all [("a", Int 1); ("b", Int 2); ("c", Int 3)] (fresh 0)
        = Some (tt, s') ∧
    wf s' ∧ world s' = world (fresh 0) ∧
    (∀ k, resident k s' ↔
          resident k (fresh 0) ∨
          k ∈ [("a", Int 1); ("b", Int 2); ("c", Int 3)].*1) ∧
    entries s' =
      reverse (entry_of <$> [("a", Int 1); ("b", Int 2); ("c", Int 3)])
      ++ entries (fresh 0).
Proof.
  assert (NoDup [("a", Int 1); ("b", Int 2); ("c", Int 3)].*1) as Hnd.
  { apply (bool_decide_unpack _). vm_compute. exact I. }
  assert (∀ k, k ∈ [("a", Int 1); ("b", Int 2); ("c", Int 3)].*1 →
               ¬ resident k (fresh 0)) as Habs.
  { intros k _. apply fresh_absent. }
  destruct (unbounded_never_evicts [("a", Int 1); ("b", Int 2); ("c", Int 3)]
              (fresh 0) (fresh_wf 0) eq_refl)
    as (Hov & s' & Hall & Hwf & Hw & Hres & Hes).
  split; [apply fresh_wf|]. split; [reflexivity|]. split; [exact Hnd|].
  split; [exact Habs|]. split; [exact Hov|].
  exists s'. split; [exact Hall|]. split; [exact Hwf|]. split; [exact Hw|].
  split; [exact Hres|]. exact (Hes Hnd Habs).
Defined.

(** [negative_MaxEntries_evicts] on a fresh cache of capacity -1, where
    nothing is resident: the added key is evicted at once. *)
Lemma negative_MaxEntries_evicts_witness :
  wf (fresh (-1)) ∧ MaxEntries (self (fresh (-1))) < 0 ∧
  ¬ resident "k" (fresh (-1)) ∧
  overflows (MaxEntries (self (fresh (-1))))
    (S (length (entries (fresh (-1))))) ∧
  ∃ mid s',
    wf mid ∧ entries mid = [Entry "k" (Int 1)] ∧
    world mid = world (fresh (-1)) ∧
    stored "k" mid = Some (Int 1) ∧
    Add "k" (Int 1) (fresh (-1)) = RemoveOldest mid ∧
    RemoveOldest mid = Some (tt, s') ∧
    wf s' ∧ entries s' = [] ∧
    world s' = [("k", Int 1)] ∧
    Len s' = Some (0, s') ∧
    ¬ resident "k" s' ∧ Get "k" s' = Some ((Nil, false), s').
Proof.
  assert (MaxEntries (self (fresh (-1))) < 0) as Hneg by (simpl; lia).
  destruct (negative_MaxEntries_evicts "k" (Int 1) (fresh (-1))
              (fresh_wf (-1)) Hneg (fresh_absent (-1) "k"))
    as (Hov & mid & s' & es & kv0 & Hwfm & Hmid & Hwm & Hst & HAdd & HRem &
        Hwf' & Hes & Hes' & Hw' & _ & _ & Hempty).
  destruct (Hempty eq_refl) as (Hkv0 & Hnil & HLen & Hgone & HGet).
  split; [apply fresh_wf|]. split; [exact Hneg|].
  split; [apply fresh_absent|]. split; [exact Hov|].
  exists mid, s'. split; [exact Hwfm|]. split; [exact Hmid|].
  split; [exact Hwm|]. split; [exact Hst|]. split; [exact HAdd|].
  split; [exact HRem|]. split; [exact Hwf'|]. split; [exact Hnil|].
  split; [rewrite Hw', Hkv0; reflexivity|]. split; [exact HLen|].
  split; [exact Hgone|]. exact HGet.
Defined.

(** [Clear_keeps_configuration] on [fresh_ab]. *)
Lemma Clear_keeps_configuration_witness :
  wf fresh_ab ∧
  range_order (self fresh_ab) (map_to_list (index fresh_ab)) ∧
  ∃ s', Clear (map_to_list (index fresh_ab)) fresh_ab = Some (tt, s') ∧
    ll (self s') = None ∧ cache (self s') = None ∧
    MaxEntries (self s') = MaxEntries (self fresh_ab) ∧
    OnEvicted (self s') = OnEvicted (self fresh_ab) ∧
    heap s' = heap fresh_ab ∧
    ∀ kvs k v, ∃ s1 s2 evicted,
      add_all kvs s' = Some (tt, s1) ∧ Add k v s1 = Some (tt, s2) ∧
      is_Some (ll (self s2)) ∧ is_Some (cache (self s2)) ∧
      MaxEntries (self s2) = MaxEntries (self fresh_ab) ∧
      OnEvicted (self s2) = OnEvicted (self fresh_ab) ∧
      (0 < MaxEntries (self fresh_ab) →
       Z.of_nat (length (entries s2)) ≤ MaxEntries (self fresh_ab)) ∧
      (length evicted ≤ 1)%nat ∧
      entries s2 ++ evicted =
        Entry k v :: filter (λ kv, key kv ≠ k) (entries s1) ∧
      world s2 = fire_all (OnEvicted (self fresh_ab)) (world s1) evicted ∧
      (evicted ≠ [] ↔
       ¬ resident k s1 ∧
       overflows (MaxEntries (self fresh_ab)) (S (length (entries s1)))).
Proof.
  assert (range_order (self fresh_ab) (map_to_list (index fresh_ab))) as Hord.
  { unfold range_order. reflexivity. }
  split; [exact fresh_ab_wf|]. split; [exact Hord|].
  exact (Clear_keeps_configuration _ fresh_ab fresh_ab_wf Hord).
Defined.

(** [lru_evicts_least_recently_touched] at capacity 2: after
    [Add("a",1); Add("b",2); Get("a")] the key ["c"] is absent, and the
    [Add] of ["c"] is described by the theorem. *)
Lemma lru_evicts_least_recently_touched_witness :
  0 < 2 ∧ "a" ≠ "b" ∧ "a" ≠ "c" ∧ "b" ≠ "c" ∧
  (∃ log s s',
     run [OpAdd "a" (Int 1); OpAdd "b" (Int 2); OpGet "a"]
       (init (with_OnEvicted (Some log_evicted) (New 2)) [])
     = Some (log, s) ∧
     ¬ resident "c" s ∧
     Add "c" (Int 3) s = Some (tt, s') ∧
     ((entries s' = Entry "c" (Int 3) :: entries s ∧ world s' = world s) ∨
      (∃ kv0, kv0 ∈ entries s ∧ key kv0 ≠ "c" ∧
         entries s' ++ [kv0] = Entry "c" (Int 3) :: entries s ∧
         ¬ resident (key kv0) s' ∧
         world s' = fire (Some log_evicted) (world s) kv0 ∧
         ∀ k', resident k' s → k' ≠ key kv0 →
               touched_before log (key kv0) k'))) ∧
  (∃ s',
     run [OpAdd "a" (Int 1); OpAdd "b" (Int 2); OpGet "a"; OpAdd "c" (Int 3)]
       (init (with_OnEvicted (Some log_evicted) (New 2)) [])
     = Some ([Some "a"; Some "b"; Some "a"; Some "c"], s') ∧
     entries s' = [Entry "c" (Int 3); Entry "a" (Int 1)] ∧
     world s' = fire (Some log_evicted) [] (Entry "b" (Int 2))).
Proof.
  assert (0 < 2) as Hpos by lia.
  assert ("a" ≠ "b") as Hab by discriminate.
  assert ("a" ≠ "c") as Hac by discriminate.
  assert ("b" ≠ "c") as Hbc by discriminate.
  destruct (lru_evicts_least_recently_touched 2 (Some log_evicted) []
              [OpAdd "a" (Int 1); OpAdd "b" (Int 2); OpGet "a"]
              "c" (Int 3) "a" "b" "c" (Int 1) (Int 2) (Int 3))
    as [Hgen Hex].
  split; [exact Hpos|]. split; [exact Hab|]. split; [exact Hac|].
  split; [exact Hbc|]. split; [|exact (Hex Hab Hac Hbc)].
  destruct (Hgen Hpos) as (log & s & Hrun & Hwf & Hadd).
  assert (¬ resident "c" s) as Habs.
  { pose proof Hrun as Hrun'. vm_compute in Hrun'.
    injection Hrun' as _ <-. apply not_resident. vm_compute. reflexivity. }
  destruct (Hadd Habs) as (s' & HAdd & Hcases).
  exists log, s, s'. split; [exact Hrun|]. split; [exact Habs|].
  split; [exact HAdd|]. exact Hcases.
Defined.

Lemma demo_program_valid : orders_valid demo_program (fresh 2).
Proof.
  vm_compute. repeat split; try exact I.
  first [reflexivity | apply perm_swap].
Qed.

(** [Len_counts_keys] on [fresh_ab]. *)
Lemma Len_counts_keys_witness :
  wf fresh_ab ∧
  Len fresh_ab = Some (Z.of_nat (size (index fresh_ab)), fresh_ab) ∧
  size (index fresh_ab) = length (entries fresh_ab) ∧
  NoDup (key <$> entries fresh_ab) ∧
  (∀ k, k ∈ key <$> entries fresh_ab ↔ is_Some (index fresh_ab !! k)).
Proof.
  split; [exact fresh_ab_wf|]. exact (Len_counts_keys fresh_ab fresh_ab_wf).
Defined.

(** [exec_all_safe] on [demo_program] and a fresh cache of capacity 2. *)
Lemma exec_all_safe_witness :
  wf (fresh 2) ∧ orders_valid demo_program (fresh 2) ∧
  ∃ rs s', exec_all demo_program (fresh 2) = Some (rs, s') ∧ wf s' ∧
    length rs = length demo_program ∧
    MaxEntries (self s') = MaxEntries (self (fresh 2)) ∧
    OnEvicted (self s') = OnEvicted (self (fresh 2)).
Proof.
  split; [exact (fresh_wf 2)|]. split; [exact demo_program_valid|].
  exact (exec_all_safe demo_program (fresh 2) (fresh_wf 2)
           demo_program_valid).
Defined.

(** [RemoveOldest_removes_back] on [fresh_ab]. *)
Lemma RemoveOldest_removes_back_witness :
  wf fresh_ab ∧
  ∃ s', RemoveOldest fresh_ab = Some (tt, s') ∧ wf s' ∧
    ((entries fresh_ab = [] ∧ s' = fresh_ab) ∨
     (∃ es kv0, entries fresh_ab = es ++ [kv0] ∧ entries s' = es ∧
        world s' = fire (OnEvicted (self fresh_ab)) (world fresh_ab) kv0 ∧
        stored (key kv0) fresh_ab = Some (value kv0) ∧
        ¬ resident (key kv0) s' ∧
        ∀ k, k ≠ key kv0 → stored k s' = stored k fresh_ab)).
Proof.
  split; [exact fresh_ab_wf|].
  exact (RemoveOldest_removes_back fresh_ab fresh_ab_wf).
Defined.

(** [drain_oldest_first] on [fresh_ab] and two calls. *)
Lemma drain_oldest_first_witness :
  wf fresh_ab ∧
  ∃ s', drain 2 fresh_ab = Some (tt, s') ∧ wf s' ∧
    entries s' = take (length (entries fresh_ab) - 2) (entries fresh_ab) ∧
    world s' =
      fire_all (OnEvicted (self fresh_ab)) (world fresh_ab)
        (reverse (drop (length (entries fresh_ab) - 2) (entries fresh_ab))) ∧
    ((length (entries fresh_ab) ≤ 2)%nat → entries s' = []).
Proof.
  split; [exact fresh_ab_wf|].
  exact (drain_oldest_first 2 fresh_ab fresh_ab_wf).
Defined.

(** [Add_Get_round_trip] on [fresh_ab], whose capacity is 2, and a new
    key. *)
Lemma Add_Get_round_trip_witness :
  wf fresh_ab ∧ 0 ≤ MaxEntries (self fresh_ab) ∧
  ∃ s1 s2, Add "c" (Int 3) fresh_ab = Some (tt, s1) ∧
    Get "c" s1 = Some ((Int 3, true), s2) ∧
    entries s2 = entries s1 ∧ world s2 = world s1.
Proof.
  assert (0 ≤ MaxEntries (self fresh_ab)) as Hmx by (vm_compute; discriminate).
  split; [exact fresh_ab_wf|]. split; [exact Hmx|].
  exact (Add_Get_round_trip "c" (Int 3) fresh_ab fresh_ab_wf Hmx).
Defined.

(** [Add_frame] on [fresh_ab] and a new key, which evicts ["a"]. *)
Lemma Add_frame_witness :
  wf fresh_ab ∧
  ∃ s' (evicted : list (@entry string val)),
    Add "c" (Int 3) fresh_ab = Some (tt, s') ∧
    (length evicted ≤ 1)%nat ∧
    (∀ kv, kv ∈ evicted → ¬ resident (key kv) s') ∧
    (∀ k', k' ≠ "c" → k' ∉ key <$> evicted →
           stored k' s' = stored k' fresh_ab).
Proof.
  split; [exact fresh_ab_wf|].
  exact (Add_frame "c" (Int 3) fresh_ab fresh_ab_wf).
Defined.

(** [Remove_frame] on [fresh_ab] and the resident key ["a"]. *)
Lemma Remove_frame_witness :
  wf fresh_ab ∧ resident "a" fresh_ab ∧
  ∃ s', Remove "a" fresh_ab = Some (tt, s') ∧
    (∀ k', k' ≠ "a" → stored k' s' = stored k' fresh_ab) ∧
    S (length (entries s')) = length (entries fresh_ab).
Proof.
  split; [exact fresh_ab_wf|]. split; [exact fresh_ab_resident_a|].
  destruct (Remove_frame "a" fresh_ab fresh_ab_wf)
    as (s' & HRem & Hframe & Hlen & _).
  exists s'. split; [exact HRem|]. split; [exact Hframe|].
  exact (Hlen fresh_ab_resident_a).
Defined.

(** [Get_keeps_bindings] on [fresh_ab] and the resident key ["a"]. *)
Lemma Get_keeps_bindings_witness :
  wf fresh_ab ∧
  ∃ s', Get "a" fresh_ab =
        Some (match stored "a" fresh_ab with
              | Some v => (v, true)
              | None => (nil_value, false)
              end, s') ∧
    entries s' ≡ₚ entries fresh_ab ∧
    (∀ k', stored k' s' = stored k' fresh_ab) ∧
    world s' = world fresh_ab.
Proof.
  split; [exact fresh_ab_wf|].
  exact (Get_keeps_bindings "a" fresh_ab fresh_ab_wf).
Defined.

(** [Add_Len] on [fresh_ab] and a new key. *)
Lemma Add_Len_witness :
  wf fresh_ab ∧
  ∃ s' n, Add "c" (Int 3) fresh_ab = Some (tt, s') ∧
    Len fresh_ab = Some (n, fresh_ab) ∧
    Len s' =
    Some (if decide (resident "c" fresh_ab ∨
                     (MaxEntries (self fresh_ab) ≠ 0 ∧
                      n + 1 > MaxEntries (self fresh_ab)))
          then n else n + 1, s').
Proof.
  split; [exact fresh_ab_wf|].
  exact (Add_Len "c" (Int 3) fresh_ab fresh_ab_wf).
Defined.

(** [Add_Remove_round_trip] on a fresh cache of capacity 2. *)
Lemma Add_Remove_round_trip_witness :
  wf (fresh 2) ∧ ¬ resident "a" (fresh 2) ∧
  ¬ overflows (MaxEntries (self (fresh 2)))
      (S (length (entries (fresh 2)))) ∧
  ∃ s1 s2, Add "a" (Int 1) (fresh 2) = Some (tt, s1) ∧
    Remove "a" s1 = Some (tt, s2) ∧
    entries s2 = entries (fresh 2) ∧
    world s2 =
      fire (OnEvicted (self (fresh 2))) (world (fresh 2)) (Entry "a" (Int 1)).
Proof.
  assert (¬ overflows (MaxEntries (self (fresh 2)))
            (S (length (entries (fresh 2))))) as Hov.
  { intros [_ Hgt]. vm_compute in Hgt. discriminate. }
  split; [exact (fresh_wf 2)|]. split; [exact (fresh_absent 2 "a")|].
  split; [exact Hov|].
  exact (Add_Remove_round_trip "a" (Int 1) (fresh 2) (fresh_wf 2)
           (fresh_absent 2 "a") Hov).
Defined.

(** [capacity_kept_by_programs] on [demo_program] and a fresh cache of
    capacity 2. *)
Lemma capacity_kept_by_programs_witness :
  wf (fresh 2) ∧ 0 < MaxEntries (self (fresh 2)) ∧
  Z.of_nat (length (entries (fresh 2))) ≤ MaxEntries (self (fresh 2)) ∧
  orders_valid demo_program (fresh 2) ∧
  ∃ rs s', exec_all demo_program (fresh 2) = Some (rs, s') ∧
    Z.of_nat (length (entries s')) ≤ MaxEntries (self (fresh 2)) ∧
    Forall (λ r, ∀ n, r = RLen n → 0 ≤ n ≤ MaxEntries (self (fresh 2))) rs.
Proof.
  assert (0 < MaxEntries (self (fresh 2))) as Hpos by (simpl; lia).
  assert (Z.of_nat (length (entries (fresh 2))) ≤ MaxEntries (self (fresh 2)))
    as Hlen by (vm_compute; discriminate).
  split; [exact (fresh_wf 2)|]. split; [exact Hpos|]. split; [exact Hlen|].
  split; [exact demo_program_valid|].
  exact (capacity_kept_by_programs demo_program (fresh 2) (fresh_wf 2)
           Hpos Hlen demo_program_valid).
Defined.

Lemma demo_program_lru_valid :
  orders_valid demo_program_lru
    (init (with_OnEvicted (Some log_evicted) (New 3)) []).
Proof. vm_compute. repeat split; try exact I. reflexivity. Qed.

(** [RemoveOldest_after_program] on [demo_program_lru] at capacity 3: the
    program ends with ["a"], ["c"], ["b"] resident in this order, and
    [RemoveOldest] removes ["b"], touched before ["a"] and ["c"]. *)
Lemma RemoveOldest_after_program_witness :
  orders_valid demo_program_lru
    (init (with_OnEvicted (Some log_evicted) (New 3)) []) ∧
  ∃ rs s s',
    exec_all demo_program_lru
      (init (with_OnEvicted (Some log_evicted) (New 3)) []) = Some (rs, s) ∧
    touch_log demo_program_lru rs =
      [Some "x"; None; Some "a"; Some "b"; Some "c"; Some "a"; None; None] ∧
    recency_ordered (touch_log demo_program_lru rs) (key <$> entries s) ∧
    entries s = [Entry "a" (Int 1); Entry "c" (Int 3)] ++ [Entry "b" (Int 2)] ∧
    RemoveOldest s = Some (tt, s') ∧
    entries s' = [Entry "a" (Int 1); Entry "c" (Int 3)] ∧
    world s' = fire (Some log_evicted) (world s) (Entry "b" (Int 2)) ∧
    (∀ k, resident k s → k ≠ "b" →
          touched_before (touch_log demo_program_lru rs) "b" k) ∧
    resident "a" s ∧ resident "c" s ∧
    touched_before (touch_log demo_program_lru rs) "b" "a" ∧
    touched_before (touch_log demo_program_lru rs) "b" "c".
Proof.
  split; [exact demo_program_lru_valid|].
  destruct (RemoveOldest_after_program 3 (Some log_evicted) []
              demo_program_lru demo_program_lru_valid)
    as (rs & s & Hall & Hrec & Hback).
  pose proof Hall as Hall'. vm_compute in Hall'. injection Hall' as Hrs Hs.
  assert (entries s
          = [Entry "a" (Int 1); Entry "c" (Int 3)] ++ [Entry "b" (Int 2)])
    as Hes by (rewrite <- Hs; vm_compute; reflexivity).
  assert (resident "a" s) as Ha
    by (rewrite <- Hs; exists 1%nat; vm_compute; reflexivity).
  assert (resident "c" s) as Hc
    by (rewrite <- Hs; exists 3%nat; vm_compute; reflexivity).
  destruct (Hback _ _ Hes) as (s' & HRem & Hes' & Hw & Hold).
  exists rs, s, s'. split; [exact Hall|].
  split; [rewrite <- Hrs; vm_compute; reflexivity|].
  split; [exact Hrec|]. split; [exact Hes|]. split; [exact HRem|].
  split; [exact Hes'|]. split; [exact Hw|]. split; [exact Hold|].
  split; [exact Ha|]. split; [exact Hc|].
  split; [apply (Hold "a" Ha); discriminate|apply (Hold "c" Hc); discriminate].
Defined.
